(** * LPC diagonal sprite generator: a shallow embedding of
      [forge_scripts/diagonal-generator.js] and the properties of its
      row extraction, shear transform and orchestration functions.

    The script draws on HTML canvases.  The part of the canvas API it calls
    ([document.createElement('canvas')], the [width]/[height] attributes,
    [getContext('2d')], [transform], [imageSmoothingEnabled], [drawImage],
    [console.warn]) is modelled in the module [Dom], after the HTML Standard;
    the functions of the script follow, one definition per JavaScript
    function, under the names of the source.

    Numbers: a canvas dimension is an [unsigned long] and is a [Z]; every other
    JavaScript number (the shear amount, a row height, a matrix entry) is a
    rational.  Dyadic rationals are exact doubles, and the examples that
    depend on the arithmetic use only those (0, 1/4, 1/2).

    Inputs: the image handed to the script is a canvas, or absent (null or
    undefined).  Both arms of the script's [instanceof] test are the same
    expression, and an image element whose [width] and [height] are its
    natural size is drawn like a canvas that shows the same picture.  The
    shear amount is always passed; the default of the parameter is the
    constant [DIAGONAL_SHEAR_AMOUNT]. *)

From Stdlib Require Import ZArith QArith Qround List String Bool Lia.
Import ListNotations.
Local Open Scope Z_scope.

(** ** The canvas platform *)

Module Dom.

(** A pixel of a canvas bitmap: premultiplied 8-bit RGBA. *)
Record Pixel : Type := mkPixel { red : Z; green : Z; blue : Z; alpha : Z }.

Definition transparent : Pixel := mkPixel 0 0 0 0.

(** The current transformation matrix, in the argument order of
    [ctx.transform(a, b, c, d, e, f)]:
    [x' = a*x + c*y + e],  [y' = b*x + d*y + f]. *)
Record Matrix : Type := mkMatrix { ma : Q; mb : Q; mc : Q; md : Q; me : Q; mf : Q }.

Definition identity : Matrix := mkMatrix 1 0 0 1 0 0.

(** A canvas element together with the state of its 2D context.  The element
    and its context are one object seen through two interfaces
    ([getContext] always answers the same context), so they share a record.
    [data] is the bitmap, row-major, [width * height] pixels. *)
Record Canvas : Type := mkCanvas {
  width : Z;
  height : Z;
  data : list Pixel;
  ctm : Matrix;
  imageSmoothingEnabled : bool
}.

(** Exceptions the calls of the script can raise. *)
Inductive Exception : Type :=
| TypeError           (* property access on null or undefined *)
| InvalidStateError.  (* drawImage from a canvas without pixels *)

Inductive Result (A : Type) : Type :=
| Ok (a : A)
| Throw (e : Exception).
Arguments Ok {A} a.
Arguments Throw {A} e.

(** Computations of the script: they may throw, and they may write to the
    console.  The console is the list of messages, oldest first. *)
Definition Console : Type := list string.
Definition Js (A : Type) : Type := Console -> Result A * Console.

Definition ret {A} (a : A) : Js A := fun k => (Ok a, k).
Definition throw {A} (e : Exception) : Js A := fun k => (Throw e, k).
Definition bind {A B} (m : Js A) (f : A -> Js B) : Js B :=
  fun k => match m k with
           | (Ok a, k') => f a k'
           | (Throw e, k') => (Throw e, k')
           end.
Definition console_warn (msg : string) : Js unit := fun k => (Ok tt, k ++ [msg]).

(** Bitmaps *)

Definition in_bounds (w h x y : Z) : bool :=
  (0 <=? x) && (x <? w) && (0 <=? y) && (y <? h).

Definition getPixel (c : Canvas) (x y : Z) : Pixel :=
  if in_bounds (width c) (height c) x y
  then nth (Z.to_nat (y * width c + x)) (data c) transparent
  else transparent.

(** The bitmap of [w * h] pixels whose pixel at [(x, y)] is [f x y]. *)
Definition render (w h : Z) (f : Z -> Z -> Pixel) : list Pixel :=
  map (fun i => f (Z.of_nat i mod w) (Z.of_nat i / w)) (seq 0 (Z.to_nat (w * h))).

(** Conversion of a number to a WebIDL [unsigned long]: truncate toward zero,
    then reduce modulo 2^32. *)
Definition Qtrunc (q : Q) : Z :=
  if Qle_bool 0 q then Qfloor q else Qceiling q.

Definition to_unsigned_long (q : Q) : Z := Qtrunc q mod 2 ^ 32.

(** A bitmap of transparent black with a context in its initial state. *)
Definition blank (w h : Z) : Canvas :=
  mkCanvas w h (render w h (fun _ _ => transparent)) identity true.

(** [document.createElement('canvas')]: 300 by 150, transparent. *)
Definition createElement_canvas : Canvas := blank 300 150.

(** Assigning [width] or [height] replaces the bitmap by a transparent one of
    the new size and resets the context. *)
Definition set_width (c : Canvas) (v : Q) : Canvas := blank (to_unsigned_long v) (height c).
Definition set_height (c : Canvas) (v : Q) : Canvas := blank (width c) (to_unsigned_long v).

Definition getContext2d (c : Canvas) : Canvas := c.

Definition set_imageSmoothingEnabled (c : Canvas) (b : bool) : Canvas :=
  mkCanvas (width c) (height c) (data c) (ctm c) b.

(** [ctx.transform(a, b, c, d, e, f)] multiplies the current matrix on the
    right by the matrix of its arguments. *)
Definition mmul (m n : Matrix) : Matrix :=
  mkMatrix (ma m * ma n + mc m * mb n)%Q
           (mb m * ma n + md m * mb n)%Q
           (ma m * mc n + mc m * md n)%Q
           (mb m * mc n + md m * md n)%Q
           (ma m * me n + mc m * mf n + me m)%Q
           (mb m * me n + md m * mf n + mf m)%Q.

Definition transform (c : Canvas) (a b c' d e f : Q) : Canvas :=
  mkCanvas (width c) (height c) (data c)
           (mmul (ctm c) (mkMatrix a b c' d e f)) (imageSmoothingEnabled c).

(** The point that the matrix sends to [(px, py)]; none for a singular matrix. *)
Definition inv_apply (m : Matrix) (px py : Q) : option (Q * Q) :=
  let det := (ma m * md m - mb m * mc m)%Q in
  if Qeq_bool det 0 then None
  else Some (((md m * (px - me m) - mc m * (py - mf m)) / det)%Q,
             ((ma m * (py - mf m) - mb m * (px - me m)) / det)%Q).

Definition in_unit (t : Q) : bool := Qle_bool 0 t && negb (Qle_bool 1 t).

(** The source pixel that [drawImage] paints at the destination pixel
    [(X, Y)], if any.  The centre of the destination pixel is taken back
    through the matrix; when it falls in the destination rectangle
    [(dx, dy, dw, dh)] it is taken on to the source rectangle
    [(sx, sy, sw, sh)], and the pixel of the image holding that point is the
    sample, provided the point is inside the image.  With smoothing disabled
    this is the nearest-neighbour rule.  With smoothing enabled the user agent
    picks the filter, and every filter returns this same pixel when the draw
    maps pixel centres to pixel centres; the model samples at the centre in
    both modes. *)
Definition sample (m : Matrix) (image : Canvas)
    (sx sy sw sh dx dy dw dh : Q) (X Y : Z) : option Pixel :=
  match inv_apply m (inject_Z X + (1 # 2))%Q (inject_Z Y + (1 # 2))%Q with
  | None => None
  | Some (qx, qy) =>
      let tx := ((qx - dx) / dw)%Q in
      let ty := ((qy - dy) / dh)%Q in
      if in_unit tx && in_unit ty then
        let u := Qfloor (sx + tx * sw)%Q in
        let v := Qfloor (sy + ty * sh)%Q in
        if in_bounds (width image) (height image) u v
        then Some (getPixel image u v) else None
      else None
  end.

(** Source-over compositing of premultiplied pixels, rounding to nearest. *)
Definition over_channel (s d sa : Z) : Z := s + (d * (255 - sa) + 127) / 255.

Definition source_over (s d : Pixel) : Pixel :=
  mkPixel (over_channel (red s) (red d) (alpha s))
          (over_channel (green s) (green d) (alpha s))
          (over_channel (blue s) (blue d) (alpha s))
          (over_channel (alpha s) (alpha d) (alpha s)).

Definition paint (c : Canvas) (f : Z -> Z -> option Pixel) : Canvas :=
  mkCanvas (width c) (height c)
           (render (width c) (height c)
                   (fun X Y => match f X Y with
                               | Some p => source_over p (getPixel c X Y)
                               | None => getPixel c X Y
                               end))
           (ctm c) (imageSmoothingEnabled c).

(** [ctx.drawImage(image, sx, sy, sw, sh, dx, dy, dw, dh)].  A canvas image
    with a zero horizontal or vertical dimension is not usable and the call
    throws InvalidStateError; an empty source or destination rectangle paints
    nothing. *)
Definition drawImage9 (c : Canvas) (image : Canvas)
    (sx sy sw sh dx dy dw dh : Q) : Js Canvas :=
  if (width image <=? 0) || (height image <=? 0) then throw InvalidStateError
  else if Qeq_bool sw 0 || Qeq_bool sh 0 || Qeq_bool dw 0 || Qeq_bool dh 0 then ret c
  else ret (paint c (sample (ctm c) image sx sy sw sh dx dy dw dh)).

(** [ctx.drawImage(image, dx, dy)]: the whole image at its own size. *)
Definition drawImage (c : Canvas) (image : Canvas) (dx dy : Q) : Js Canvas :=
  let w := inject_Z (width image) in
  let h := inject_Z (height image) in
  drawImage9 c image 0 0 w h dx dy w h.

(** Reading a property of a value that may be null or undefined. *)
Definition get_object {A} (v : option A) : Js A :=
  match v with
  | Some a => ret a
  | None => throw TypeError
  end.

End Dom.

Import Dom.

Notation "x <- m ;; k" := (bind m (fun x => k))
  (at level 61, m at next level, right associativity).

(** A JavaScript object literal: its properties in insertion order. *)
Definition Object (A : Type) : Type := list (string * A).

Definition keys {A} (o : Object A) : list string := map fst o.

Fixpoint get {A} (o : Object A) (k : string) : option A :=
  match o with
  | [] => None
  | (k', v) :: o' => if String.eqb k k' then Some v else get o' k
  end.

(** ** The script *)

Local Open Scope string_scope.

Definition DIAGONAL_SHEAR_AMOUNT : Q := (15 # 100)%Q.

Definition warning : string :=
  "Not a standard LPC 4-row format, applying transformation to entire image".

(** [extractRow(sourceCanvas, rowIndex)] *)
Definition extractRow (sourceCanvas : Canvas) (rowIndex : Z) : Js Canvas :=
  let width := width sourceCanvas in
  let height := height sourceCanvas in
  let rowHeight := (inject_Z height / 4)%Q in
  let rowCanvas := createElement_canvas in
  let rowCanvas := set_width rowCanvas (inject_Z width) in
  let rowCanvas := set_height rowCanvas rowHeight in
  let ctx := getContext2d rowCanvas in
  ctx <- drawImage9 ctx sourceCanvas
           0 (inject_Z rowIndex * rowHeight)%Q
           (inject_Z width) rowHeight
           0 0
           (inject_Z width) rowHeight ;;
  ret ctx.

(** [applyShearTransform(sourceCanvas, direction, shearAmount)] *)
Definition applyShearTransform (sourceCanvas : Canvas) (direction : string)
    (shearAmount : Q) : Js Canvas :=
  let width := width sourceCanvas in
  let height := height sourceCanvas in
  let outputCanvas := createElement_canvas in
  let outputCanvas := set_width outputCanvas (inject_Z width) in
  let outputCanvas := set_height outputCanvas (inject_Z height) in
  let ctx := getContext2d outputCanvas in
  let ctx :=
    if (direction =? "ne") || (direction =? "se") then
      transform ctx 1 shearAmount 0 1 0 0
    else
      let offset := (inject_Z width * shearAmount)%Q in
      transform ctx 1 (- shearAmount)%Q 0 1 offset 0 in
  let ctx := set_imageSmoothingEnabled ctx false in
  ctx <- drawImage ctx sourceCanvas 0 0 ;;
  ret ctx.

(** The opening lines that [generateDiagonal] and [generateAll8Directions]
    share word for word: create [sourceCanvas], read the size of the image
    (a TypeError when the image is absent), size the canvas and draw the image
    on it. *)
Definition loadSource (sourceImage : option Canvas) : Js Canvas :=
  let sourceCanvas := createElement_canvas in
  let sourceCtx := getContext2d sourceCanvas in
  img <- get_object sourceImage ;;
  let sourceCtx := set_width sourceCtx (inject_Z (width img)) in
  let sourceCtx := set_height sourceCtx (inject_Z (height img)) in
  drawImage sourceCtx img 0 0.

(** [generateDiagonal(sourceImage, direction, shearAmount)] *)
Definition generateDiagonal (sourceImage : option Canvas) (direction : string)
    (shearAmount : Q) : Js Canvas :=
  sourceCanvas <- loadSource sourceImage ;;
  let height := height sourceCanvas in
  let isLPCFormat := (height mod 4 =? 0)%Z && (256 <=? height)%Z in
  if negb isLPCFormat then
    _ <- console_warn warning ;;
    applyShearTransform sourceCanvas direction shearAmount
  else
    baseRow <- (if (direction =? "ne") || (direction =? "nw")
                then extractRow sourceCanvas 2
                else extractRow sourceCanvas 0) ;;
    applyShearTransform baseRow direction shearAmount.

(** [generateAllDiagonals(sourceImage, shearAmount)] *)
Definition generateAllDiagonals (sourceImage : option Canvas) (shearAmount : Q)
    : Js (Object Canvas) :=
  ne <- generateDiagonal sourceImage "ne" shearAmount ;;
  nw <- generateDiagonal sourceImage "nw" shearAmount ;;
  se <- generateDiagonal sourceImage "se" shearAmount ;;
  sw <- generateDiagonal sourceImage "sw" shearAmount ;;
  ret [("ne", ne); ("nw", nw); ("se", se); ("sw", sw)].

(** [generateAll8Directions(sourceImage, shearAmount)] *)
Definition generateAll8Directions (sourceImage : option Canvas) (shearAmount : Q)
    : Js (Object Canvas) :=
  sourceCanvas <- loadSource sourceImage ;;
  n <- extractRow sourceCanvas 2 ;;
  e <- extractRow sourceCanvas 3 ;;
  s <- extractRow sourceCanvas 0 ;;
  w <- extractRow sourceCanvas 1 ;;
  ne <- generateDiagonal sourceImage "ne" shearAmount ;;
  nw <- generateDiagonal sourceImage "nw" shearAmount ;;
  se <- generateDiagonal sourceImage "se" shearAmount ;;
  sw <- generateDiagonal sourceImage "sw" shearAmount ;;
  ret [("n", n); ("e", e); ("s", s); ("w", w);
       ("ne", ne); ("nw", nw); ("se", se); ("sw", sw)].

(** ** Vocabulary of the properties *)

Local Open Scope Z_scope.

(** A canvas with pixels: both dimensions positive [unsigned long] values. *)
Definition usable (c : Canvas) : Prop :=
  0 < width c < 2 ^ 32 /\ 0 < height c < 2 ^ 32.

(** Two canvases showing the same picture. *)
Definition same_picture (c1 c2 : Canvas) : Prop :=
  width c1 = width c2 /\ height c1 = height c2 /\
  forall x y, getPixel c1 x y = getPixel c2 x y.

(** The source pixel shown at the output pixel [(X, Y)] of a canvas [w] wide:
    the centre of the output pixel taken back through the matrix that
    [applyShearTransform] sets for the direction. *)
Definition shear_preimage (w : Z) (direction : string) (shearAmount : Q)
    (X Y : Z) : Z * Z :=
  if (direction =? "ne")%string || (direction =? "se")%string then
    (X, Qfloor (inject_Z Y + (1 # 2) - shearAmount * (inject_Z X + (1 # 2)))%Q)
  else
    (Qfloor (inject_Z X + (1 # 2) - inject_Z w * shearAmount)%Q,
     Qfloor (inject_Z Y + (1 # 2)
             + shearAmount * (inject_Z X + (1 # 2) - inject_Z w * shearAmount))%Q).

(** A picture equal to its own reflection in the vertical centre line. *)
Definition horizontally_symmetric (c : Canvas) : Prop :=
  forall x y, getPixel c x y = getPixel c (width c - 1 - x) y.

(** Two pictures of the same size, each the reflection of the other. *)
Definition mirror_images (c1 c2 : Canvas) : Prop :=
  width c1 = width c2 /\ height c1 = height c2 /\
  forall x y, getPixel c1 x y = getPixel c2 (width c2 - 1 - x) y.

(** The test [isLPCFormat] of [generateDiagonal]. *)
Definition conforming (c : Canvas) : bool :=
  (height c mod 4 =? 0) && (256 <=? height c).

(** What one call of [generateDiagonal] writes to the console. *)
Definition fallback_warnings (c : Canvas) : Console :=
  if conforming c then [] else [warning].

(** The row that [generateDiagonal] takes for a direction token. *)
Definition base_row_index (direction : string) : Z :=
  if (direction =? "ne")%string || (direction =? "nw")%string then 2 else 0.

(** ** Concrete canvases used in the examples *)

(** An opaque pixel whose red channel is [v]. *)
Definition shade (v : Z) : Pixel := mkPixel v 0 0 255.

(** A canvas in its initial context state holding the picture [f]. *)
Definition picture (w h : Z) (f : Z -> Z -> Pixel) : Canvas :=
  mkCanvas w h (render w h f) identity true.

(** A conforming sheet, 2 by 256: four rows of 64 lines. *)
Definition sheet256 : Canvas := picture 2 256 (fun x y => shade (y / 64 * 2 + x)).

(** A 4 by 4 canvas with every pixel distinct. *)
Definition grid4 : Canvas := picture 4 4 (fun x y => shade (10 * y + x + 1)).

(** A 4 by 4 canvas, transparent but for one opaque pixel at (0, 2). *)
Definition dot4 : Canvas :=
  picture 4 4 (fun x y => if (x =? 0) && (y =? 2) then shade 255 else transparent).

(** A symmetric 4 by 4 canvas. *)
Definition sym4 : Canvas := picture 4 4 (fun x y => shade (10 * y + Z.min x (3 - x) + 1)).

(** A sheet whose height is no multiple of 4: 2 by 6. *)
Definition odd6 : Canvas := picture 2 6 (fun x y => shade (10 * y + x + 1)).

(** A canvas without pixels. *)
Definition empty0 : Canvas := picture 0 64 (fun _ _ => transparent).

(** ** Bitmaps: reading back what was rendered *)

Lemma in_bounds_true (w h x y : Z) :
  in_bounds w h x y = true <-> 0 <= x < w /\ 0 <= y < h.
Proof.
  unfold in_bounds. rewrite !andb_true_iff.
  rewrite !Z.leb_le, !Z.ltb_lt. lia.
Qed.

Lemma in_bounds_intro (w h x y : Z) :
  0 <= x < w -> 0 <= y < h -> in_bounds w h x y = true.
Proof. intros. apply in_bounds_true. auto. Qed.

Lemma cell_index (w h x y : Z) :
  0 <= x < w -> 0 <= y < h -> (Z.to_nat (y * w + x) < Z.to_nat (w * h))%nat.
Proof. intros Hx Hy. apply Z2Nat.inj_lt; nia. Qed.

Lemma nth_render (w h : Z) (f : Z -> Z -> Pixel) (x y : Z) (d : Pixel) :
  0 <= x < w -> 0 <= y < h ->
  nth (Z.to_nat (y * w + x)) (render w h f) d = f x y.
Proof.
  intros Hx Hy. unfold render.
  pose proof (cell_index w h x y Hx Hy) as Hlt.
  rewrite (nth_indep _ d (f (Z.of_nat 0 mod w) (Z.of_nat 0 / w)))
    by (now rewrite length_map, length_seq).
  rewrite (map_nth (fun i => f (Z.of_nat i mod w) (Z.of_nat i / w))).
  rewrite seq_nth by exact Hlt. cbn [plus].
  rewrite Z2Nat.id by nia.
  f_equal.
  - rewrite Z.add_comm, Z.mod_add by lia. apply Z.mod_small; lia.
  - rewrite Z.add_comm, Z.div_add by lia. rewrite Z.div_small; lia.
Qed.

Lemma render_ext (w h : Z) (f g : Z -> Z -> Pixel) :
  0 <= w ->
  (forall x y, 0 <= x < w -> 0 <= y < h -> f x y = g x y) ->
  render w h f = render w h g.
Proof.
  intros Hw E. unfold render. apply map_ext_in. intros i Hi.
  apply in_seq in Hi. cbn in Hi.
  assert (Hih : 0 <= Z.of_nat i < w * h) by lia.
  assert (Hw' : 0 < w).
  { destruct (Z.eq_dec w 0) as [-> | ]; lia. }
  apply E.
  - apply Z.mod_pos_bound. lia.
  - split.
    + apply Z.div_pos; lia.
    + apply Z.div_lt_upper_bound; lia.
Qed.

Lemma getPixel_outside (c : Canvas) (x y : Z) :
  in_bounds (width c) (height c) x y = false -> getPixel c x y = transparent.
Proof. intros H. unfold getPixel. now rewrite H. Qed.

Lemma getPixel_mk (w h : Z) (f : Z -> Z -> Pixel) (m : Matrix) (b : bool) (x y : Z) :
  0 <= x < w -> 0 <= y < h ->
  getPixel (mkCanvas w h (render w h f) m b) x y = f x y.
Proof.
  intros Hx Hy. unfold getPixel. cbn [width height data].
  rewrite in_bounds_intro by assumption. now apply nth_render.
Qed.

Lemma getPixel_blank (w h x y : Z) : getPixel (blank w h) x y = transparent.
Proof.
  unfold blank. destruct (in_bounds w h x y) eqn:E.
  - apply in_bounds_true in E. destruct E. now rewrite getPixel_mk.
  - now apply getPixel_outside.
Qed.

Lemma source_over_transparent (p : Pixel) : source_over p transparent = p.
Proof.
  destruct p. unfold source_over, over_channel, transparent.
  cbn [red green blue alpha]. rewrite !Z.mul_0_l.
  change ((0 + 127) / 255) with 0. now rewrite !Z.add_0_r.
Qed.

Lemma getPixel_paint (c : Canvas) (f : Z -> Z -> option Pixel) (x y : Z) :
  0 <= x < width c -> 0 <= y < height c ->
  getPixel (paint c f) x y =
  match f x y with
  | Some p => source_over p (getPixel c x y)
  | None => getPixel c x y
  end.
Proof. intros Hx Hy. unfold paint. now rewrite getPixel_mk. Qed.

(** ** Rational arithmetic of the sampling rule *)

Lemma Qle_bool_floor (a : Z) (q : Q) :
  Qle_bool (inject_Z a) q = (a <=? Qfloor q).
Proof.
  apply eq_true_iff_eq. rewrite Qle_bool_iff, Z.leb_le. split; intros H.
  - apply Qfloor_resp_le in H. now rewrite Qfloor_Z in H.
  - apply Qle_trans with (inject_Z (Qfloor q)).
    + now rewrite <- Zle_Qle.
    + apply Qfloor_le.
Qed.

Lemma Qfloor_eq (p q : Q) : (p == q)%Q -> Qfloor p = Qfloor q.
Proof. intros H. now rewrite H. Qed.

Lemma Qle_bool_eq (p p' q q' : Q) :
  (p == p')%Q -> (q == q')%Q -> Qle_bool p q = Qle_bool p' q'.
Proof. intros Hp Hq. now rewrite Hp, Hq. Qed.

Lemma Qfloor_centre (n : Z) : Qfloor (inject_Z n + (1 # 2)) = n.
Proof.
  unfold Qfloor, Qplus, inject_Z. cbn [Qnum Qden].
  rewrite Z.mul_1_l.
  change (Z.pos (1 * 2)) with 2. change (Z.pos 2) with 2.
  symmetry. apply (Z.div_unique (n * 2 + 1) 2 n 1); lia.
Qed.

Lemma in_unit_rect (q d w t : Q) :
  (0 < w)%Q -> (t == (q - d) / w)%Q ->
  in_unit t = Qle_bool d q && negb (Qle_bool (d + w) q).
Proof.
  intros Hw Ht. unfold in_unit.
  assert (Hnz : ~ (w == 0)%Q) by (intros E; rewrite E in Hw; discriminate).
  f_equal; [| f_equal]; apply eq_true_iff_eq; rewrite !Qle_bool_iff.
  - rewrite Ht. split; intros H.
    + apply (Qmult_le_r _ _ w Hw) in H.
      setoid_replace ((q - d) / w * w)%Q with (q - d)%Q in H by (field; exact Hnz).
      rewrite Qmult_0_l in H.
      apply (Qplus_le_l _ _ (- d)%Q).
      now setoid_replace (d + - d)%Q with 0%Q by ring.
    + apply (Qmult_le_r _ _ w Hw).
      setoid_replace ((q - d) / w * w)%Q with (q - d)%Q by (field; exact Hnz).
      rewrite Qmult_0_l.
      apply (Qplus_le_l _ _ (- d)%Q) in H.
      now setoid_replace (d + - d)%Q with 0%Q in H by ring.
  - rewrite Ht. split; intros H.
    + apply (Qmult_le_r _ _ w Hw) in H.
      setoid_replace ((q - d) / w * w)%Q with (q - d)%Q in H by (field; exact Hnz).
      rewrite Qmult_1_l in H.
      apply (Qplus_le_l _ _ (- d)%Q).
      now setoid_replace (d + w + - d)%Q with w by ring.
    + apply (Qmult_le_r _ _ w Hw).
      setoid_replace ((q - d) / w * w)%Q with (q - d)%Q by (field; exact Hnz).
      rewrite Qmult_1_l.
      apply (Qplus_le_l _ _ (- d)%Q) in H.
      now setoid_replace (d + w + - d)%Q with w in H by ring.
Qed.

(** The sampling rule for a draw at scale one (destination and source
    rectangles of the same size) under a matrix of determinant one, which is
    every draw of the script: [(qx, qy)] is the centre of the destination
    pixel taken back through the matrix. *)
Lemma sample_unscaled (m : Matrix) (image : Canvas) (sx sy w h dx dy : Q)
    (X Y : Z) (qx qy : Q) :
  (ma m * md m - mb m * mc m == 1)%Q ->
  (qx == md m * (inject_Z X + (1 # 2) - me m) - mc m * (inject_Z Y + (1 # 2) - mf m))%Q ->
  (qy == ma m * (inject_Z Y + (1 # 2) - mf m) - mb m * (inject_Z X + (1 # 2) - me m))%Q ->
  (0 < w)%Q -> (0 < h)%Q ->
  sample m image sx sy w h dx dy w h X Y =
  if (Qle_bool dx qx && negb (Qle_bool (dx + w) qx))
     && (Qle_bool dy qy && negb (Qle_bool (dy + h) qy))
  then
    let u := Qfloor (sx + (qx - dx)) in
    let v := Qfloor (sy + (qy - dy)) in
    if in_bounds (width image) (height image) u v
    then Some (getPixel image u v) else None
  else None.
Proof.
  intros Hdet Hqx Hqy Hw Hh.
  assert (Hwz : ~ (w == 0)%Q) by (intros E; rewrite E in Hw; discriminate).
  assert (Hhz : ~ (h == 0)%Q) by (intros E; rewrite E in Hh; discriminate).
  unfold sample, inv_apply.
  assert (Hd : Qeq_bool (ma m * md m - mb m * mc m) 0 = false).
  { destruct (Qeq_bool (ma m * md m - mb m * mc m) 0) eqn:E; [| reflexivity].
    apply Qeq_bool_iff in E. rewrite Hdet in E. discriminate. }
  rewrite Hd. cbv zeta.
  rewrite (in_unit_rect qx dx w) by
    (try assumption; rewrite Hqx, Hdet; field; exact Hwz).
  rewrite (in_unit_rect qy dy h) by
    (try assumption; rewrite Hqy, Hdet; field; exact Hhz).
  match goal with
  | |- context [Qfloor (sx + ?t * w)] =>
      rewrite (Qfloor_eq (sx + t * w) (sx + (qx - dx)))
        by (rewrite Hqx, Hdet; field; exact Hwz)
  end.
  match goal with
  | |- context [Qfloor (sy + ?t * h)] =>
      rewrite (Qfloor_eq (sy + t * h) (sy + (qy - dy)))
        by (rewrite Hqy, Hdet; field; exact Hhz)
  end.
  reflexivity.
Qed.

(** ** Canvases the platform can hold and draw from *)

Lemma Qle_bool_0_inject (n : Z) : 0 <= n -> Qle_bool 0 (inject_Z n) = true.
Proof.
  intros H. change 0%Q with (inject_Z 0).
  rewrite Qle_bool_floor, Qfloor_Z. now apply Z.leb_le.
Qed.

Lemma to_unsigned_long_Z (n : Z) :
  0 <= n < 2 ^ 32 -> to_unsigned_long (inject_Z n) = n.
Proof.
  intros H. unfold to_unsigned_long, Qtrunc.
  rewrite Qle_bool_0_inject by lia.
  rewrite Qfloor_Z. apply Z.mod_small. exact H.
Qed.

Lemma Qfloor_quarter (n : Z) : Qfloor (inject_Z n / 4) = n / 4.
Proof.
  unfold Qfloor, Qdiv, Qmult, Qinv, inject_Z. cbn [Qnum Qden].
  now rewrite Z.mul_1_r.
Qed.

Lemma to_unsigned_long_quarter (n : Z) :
  0 <= n < 2 ^ 32 -> to_unsigned_long (inject_Z n / 4) = n / 4.
Proof.
  intros H. unfold to_unsigned_long, Qtrunc.
  assert (E : Qle_bool 0 (inject_Z n / 4) = true).
  { apply Qle_bool_iff. apply Qle_shift_div_l; [reflexivity |].
    rewrite Qmult_0_l. change 0%Q with (inject_Z 0). rewrite <- Zle_Qle. lia. }
  rewrite E, Qfloor_quarter. apply Z.mod_small.
  split; [apply Z.div_pos; lia | apply Z.div_lt_upper_bound; lia].
Qed.

Lemma fresh_canvas (w h : Z) :
  0 <= w < 2 ^ 32 -> 0 <= h < 2 ^ 32 ->
  set_height (set_width createElement_canvas (inject_Z w)) (inject_Z h) = blank w h.
Proof.
  intros Hw Hh. unfold set_height, set_width.
  unfold blank at 2. cbn [width].
  now rewrite !to_unsigned_long_Z.
Qed.

Lemma Qeq_bool_inject_pos (n : Z) : 0 < n -> Qeq_bool (inject_Z n) 0 = false.
Proof.
  intros H. destruct (Qeq_bool (inject_Z n) 0) eqn:E; [| reflexivity].
  apply Qeq_bool_iff in E. change 0%Q with (inject_Z 0) in E.
  apply (proj1 (inject_Z_injective n 0)) in E. lia.
Qed.

Lemma Qlt_0_inject (n : Z) : 0 < n -> (0 < inject_Z n)%Q.
Proof. intros H. change 0%Q with (inject_Z 0). now rewrite <- Zlt_Qlt. Qed.

Lemma drawImage_ok (c image : Canvas) (k : Console) :
  0 < width image -> 0 < height image ->
  drawImage c image 0 0 k =
  (Ok (paint c (sample (ctm c) image 0 0 (inject_Z (width image))
                       (inject_Z (height image)) 0 0
                       (inject_Z (width image)) (inject_Z (height image)))), k).
Proof.
  intros Hw Hh. unfold drawImage, drawImage9.
  replace (width image <=? 0) with false by (symmetry; apply Z.leb_gt; lia).
  replace (height image <=? 0) with false by (symmetry; apply Z.leb_gt; lia).
  rewrite !Qeq_bool_inject_pos by assumption. reflexivity.
Qed.

Lemma drawImage_empty (c image : Canvas) (dx dy : Q) (k : Console) :
  width image <= 0 \/ height image <= 0 ->
  drawImage c image dx dy k = (Throw InvalidStateError, k).
Proof.
  intros H. unfold drawImage, drawImage9.
  assert (E : (width image <=? 0) || (height image <=? 0) = true).
  { apply orb_true_iff. rewrite !Z.leb_le. exact H. }
  now rewrite E.
Qed.

(** A whole-image draw at the origin of a transparent canvas: the destination
    pixel shows the image pixel under the point [(qx, qy)]. *)
Lemma paint_whole_pixel (c image : Canvas) (X Y : Z) (qx qy : Q) :
  0 < width image -> 0 < height image ->
  (ma (ctm c) * md (ctm c) - mb (ctm c) * mc (ctm c) == 1)%Q ->
  (qx == md (ctm c) * (inject_Z X + (1 # 2) - me (ctm c))
         - mc (ctm c) * (inject_Z Y + (1 # 2) - mf (ctm c)))%Q ->
  (qy == ma (ctm c) * (inject_Z Y + (1 # 2) - mf (ctm c))
         - mb (ctm c) * (inject_Z X + (1 # 2) - me (ctm c)))%Q ->
  (forall x y, getPixel c x y = transparent) ->
  0 <= X < width c -> 0 <= Y < height c ->
  getPixel (paint c (sample (ctm c) image 0 0 (inject_Z (width image))
                            (inject_Z (height image)) 0 0
                            (inject_Z (width image)) (inject_Z (height image)))) X Y
  = getPixel image (Qfloor qx) (Qfloor qy).
Proof.
  intros Hw Hh Hdet Hqx Hqy Hc HX HY.
  rewrite getPixel_paint by assumption.
  rewrite (sample_unscaled _ _ _ _ _ _ _ _ _ _ qx qy Hdet Hqx Hqy)
    by (apply Qlt_0_inject; assumption).
  cbv zeta.
  rewrite (Qfloor_eq (0 + (qx - 0)) qx) by ring.
  rewrite (Qfloor_eq (0 + (qy - 0)) qy) by ring.
  rewrite (Qle_bool_eq (0 + inject_Z (width image)) (inject_Z (width image)) qx qx)
    by (ring || reflexivity).
  rewrite (Qle_bool_eq (0 + inject_Z (height image)) (inject_Z (height image)) qy qy)
    by (ring || reflexivity).
  change 0%Q with (inject_Z 0). rewrite !Qle_bool_floor.
  rewrite Hc.
  destruct (in_bounds (width image) (height image) (Qfloor qx) (Qfloor qy)) eqn:E.
  - pose proof E as E'. apply in_bounds_true in E'. destruct E' as [[? ?] [? ?]].
    replace (0 <=? Qfloor qx) with true by (symmetry; apply Z.leb_le; lia).
    replace (0 <=? Qfloor qy) with true by (symmetry; apply Z.leb_le; lia).
    replace (width image <=? Qfloor qx) with false by (symmetry; apply Z.leb_gt; lia).
    replace (height image <=? Qfloor qy) with false by (symmetry; apply Z.leb_gt; lia).
    cbn [andb negb]. apply source_over_transparent.
  - rewrite (getPixel_outside image) by exact E.
    match goal with |- context [if ?b then _ else None] => destruct b end; reflexivity.
Qed.

(** ** What [applyShearTransform] draws *)

Ltac shear_state :=
  cbn [set_imageSmoothingEnabled transform mmul identity blank
       ctm ma mb mc md me mf width height data].

Lemma applyShearTransform_spec (src : Canvas) (direction : string)
    (shearAmount : Q) :
  usable src ->
  exists out,
    (forall k, applyShearTransform src direction shearAmount k = (Ok out, k)) /\
    width out = width src /\ height out = height src /\
    forall X Y, 0 <= X < width src -> 0 <= Y < height src ->
      getPixel out X Y =
      getPixel src (fst (shear_preimage (width src) direction shearAmount X Y))
                   (snd (shear_preimage (width src) direction shearAmount X Y)).
Proof.
  intros [Hw Hh]. unfold applyShearTransform, getContext2d.
  rewrite fresh_canvas by lia.
  unfold bind.
  eexists. split; [intros k; rewrite drawImage_ok by lia; reflexivity |].
  split; [destruct ((direction =? "ne")%string || (direction =? "se")%string); reflexivity |].
  split; [destruct ((direction =? "ne")%string || (direction =? "se")%string); reflexivity |].
  intros X Y HX HY. unfold shear_preimage.
  destruct ((direction =? "ne")%string || (direction =? "se")%string); cbn [fst snd].
  - rewrite <- (Qfloor_centre X) at 2.
    apply paint_whole_pixel; try lia; try (now shear_state); try (shear_state; ring).
    intros x y. now rewrite <- (getPixel_blank (width src) (height src) x y).
  - apply paint_whole_pixel; try lia; try (now shear_state); try (shear_state; ring).
    intros x y. now rewrite <- (getPixel_blank (width src) (height src) x y).
Qed.

(** ** What [extractRow] copies *)

Lemma Qlt_0_quarter (n : Z) : 0 < n -> (0 < inject_Z n / 4)%Q.
Proof.
  intros H. apply Qlt_shift_div_l; [reflexivity |].
  rewrite Qmult_0_l. now apply Qlt_0_inject.
Qed.

Lemma Qeq_bool_pos (q : Q) : (0 < q)%Q -> Qeq_bool q 0 = false.
Proof.
  intros H. destruct (Qeq_bool q 0) eqn:E; [| reflexivity].
  apply Qeq_bool_iff in E. rewrite E in H. discriminate.
Qed.

Lemma quarter_le (n : Z) : (inject_Z (n / 4) <= inject_Z n / 4)%Q.
Proof.
  rewrite <- Qfloor_quarter. apply Qfloor_le.
Qed.

Lemma quarter_exact (n : Z) : n mod 4 = 0 -> (inject_Z n / 4 == inject_Z (n / 4))%Q.
Proof.
  intros H. assert (E : n = 4 * (n / 4)) by (apply Z.div_exact; lia).
  rewrite E at 1. rewrite inject_Z_mult. field.
Qed.

Lemma row_canvas (w h : Z) :
  0 <= w < 2 ^ 32 -> 0 <= h < 2 ^ 32 ->
  set_height (set_width createElement_canvas (inject_Z w)) (inject_Z h / 4)
  = blank w (h / 4).
Proof.
  intros Hw Hh. unfold set_height, set_width.
  unfold blank at 2. cbn [width].
  now rewrite to_unsigned_long_Z, to_unsigned_long_quarter.
Qed.

Lemma extractRow_ok (src : Canvas) (rowIndex : Z) (k : Console) :
  usable src ->
  extractRow src rowIndex k =
  (Ok (paint (blank (width src) (height src / 4))
             (sample identity src 0 (inject_Z rowIndex * (inject_Z (height src) / 4))
                     (inject_Z (width src)) (inject_Z (height src) / 4) 0 0
                     (inject_Z (width src)) (inject_Z (height src) / 4))), k).
Proof.
  intros [Hw Hh]. unfold extractRow, getContext2d.
  rewrite row_canvas by lia.
  unfold bind, drawImage9.
  replace (width src <=? 0) with false by (symmetry; apply Z.leb_gt; lia).
  replace (height src <=? 0) with false by (symmetry; apply Z.leb_gt; lia).
  rewrite Qeq_bool_inject_pos by lia.
  rewrite (Qeq_bool_pos (inject_Z (height src) / 4)) by (apply Qlt_0_quarter; lia).
  reflexivity.
Qed.

Lemma extractRow_spec (src : Canvas) (rowIndex : Z) :
  usable src ->
  exists row,
    (forall k, extractRow src rowIndex k = (Ok row, k)) /\
    width row = width src /\ height row = height src / 4 /\
    forall X Y, 0 <= X < width src -> 0 <= Y < height src / 4 ->
      getPixel row X Y =
      getPixel src X (Qfloor (inject_Z rowIndex * (inject_Z (height src) / 4)
                              + (inject_Z Y + (1 # 2)))%Q).
Proof.
  intros Hu.
  eexists. split; [intros k; rewrite extractRow_ok by exact Hu; reflexivity |].
  destruct Hu as [Hw Hh].
  split; [reflexivity |]. split; [reflexivity |].
  intros X Y HX HY.
  rewrite getPixel_paint by assumption.
  rewrite getPixel_blank.
  rewrite (sample_unscaled identity src _ _ _ _ _ _ X Y
             (inject_Z X + (1 # 2)) (inject_Z Y + (1 # 2)))
    by (try (apply Qlt_0_inject; lia); try (apply Qlt_0_quarter; lia);
        cbn [identity ma mb mc md me mf]; ring).
  cbv zeta.
  rewrite (Qfloor_eq (0 + (inject_Z X + (1 # 2) - 0)) (inject_Z X + (1 # 2))) by ring.
  rewrite Qfloor_centre.
  match goal with
  | |- context [Qfloor (?a + (inject_Z Y + (1 # 2) - 0))%Q] =>
      rewrite (Qfloor_eq (a + (inject_Z Y + (1 # 2) - 0)) (a + (inject_Z Y + (1 # 2))))
        by ring
  end.
  assert (T1 : Qle_bool 0 (inject_Z X + (1 # 2)) = true).
  { change 0%Q with (inject_Z 0). rewrite Qle_bool_floor, Qfloor_centre.
    apply Z.leb_le. lia. }
  assert (T2 : Qle_bool (0 + inject_Z (width src)) (inject_Z X + (1 # 2)) = false).
  { rewrite (Qle_bool_eq _ (inject_Z (width src)) _ (inject_Z X + (1 # 2)))
      by (ring || reflexivity).
    rewrite Qle_bool_floor, Qfloor_centre. apply Z.leb_gt. lia. }
  assert (T3 : Qle_bool 0 (inject_Z Y + (1 # 2)) = true).
  { change 0%Q with (inject_Z 0). rewrite Qle_bool_floor, Qfloor_centre.
    apply Z.leb_le. lia. }
  assert (T4 : Qle_bool (0 + inject_Z (height src) / 4) (inject_Z Y + (1 # 2)) = false).
  { destruct (Qle_bool (0 + inject_Z (height src) / 4) (inject_Z Y + (1 # 2))) eqn:E;
      [| reflexivity].
    apply Qle_bool_iff in E. rewrite Qplus_0_l in E.
    pose proof (Qle_trans _ _ _ (quarter_le (height src)) E) as L.
    apply Qfloor_resp_le in L. rewrite Qfloor_Z, Qfloor_centre in L. lia. }
  rewrite T1, T2, T3, T4. cbn [andb negb].
  match goal with
  | |- context [in_bounds ?w ?h ?x ?y] => destruct (in_bounds w h x y) eqn:E
  end.
  - apply source_over_transparent.
  - symmetry. now apply getPixel_outside.
Qed.

(** ** Drawing from two canvases that show the same picture *)

Lemma sample_same_picture (m : Matrix) (c1 c2 : Canvas)
    (sx sy sw sh dx dy dw dh : Q) (X Y : Z) :
  same_picture c1 c2 ->
  sample m c1 sx sy sw sh dx dy dw dh X Y = sample m c2 sx sy sw sh dx dy dw dh X Y.
Proof.
  intros (Hw & Hh & Hp). unfold sample.
  destruct (inv_apply m _ _) as [[qx qy] |]; [| reflexivity].
  now rewrite Hw, Hh, Hp.
Qed.

Lemma paint_ext (c : Canvas) (f g : Z -> Z -> option Pixel) :
  0 <= width c ->
  (forall X Y, f X Y = g X Y) -> paint c f = paint c g.
Proof.
  intros Hw E. unfold paint. f_equal.
  apply render_ext; [exact Hw |]. intros x y _ _. now rewrite E.
Qed.

Ltac same_result :=
  match goal with
  | |- (Ok ?a, _) = (Ok ?b, _) => assert (E : a = b); [| now rewrite E]
  end.

Lemma extractRow_same_picture (c1 c2 : Canvas) (rowIndex : Z) (k : Console) :
  usable c1 -> same_picture c1 c2 ->
  extractRow c1 rowIndex k = extractRow c2 rowIndex k.
Proof.
  intros Hu Hs.
  assert (Hu2 : usable c2).
  { destruct Hs as (Hw & Hh & _). unfold usable. rewrite <- Hw, <- Hh. exact Hu. }
  rewrite !extractRow_ok by assumption.
  destruct Hs as (Hw & Hh & Hp). rewrite <- Hw, <- Hh.
  same_result. apply paint_ext.
  - cbn [blank width]. destruct Hu. lia.
  - intros X Y. apply sample_same_picture. repeat split; assumption.
Qed.

Lemma applyShearTransform_same_picture (c1 c2 : Canvas) (direction : string)
    (shearAmount : Q) (k : Console) :
  usable c1 -> same_picture c1 c2 ->
  applyShearTransform c1 direction shearAmount k
  = applyShearTransform c2 direction shearAmount k.
Proof.
  intros [Hw1 Hh1] (Hw & Hh & Hp).
  unfold applyShearTransform, getContext2d, bind.
  rewrite !drawImage_ok by lia.
  rewrite <- Hw, <- Hh. unfold ret. cbv beta iota zeta.
  same_result. apply paint_ext.
  - rewrite fresh_canvas by lia.
    destruct ((direction =? "ne")%string || (direction =? "se")%string);
      cbn [set_imageSmoothingEnabled transform blank width]; lia.
  - intros X Y. apply sample_same_picture. repeat split; assumption.
Qed.

(** ** The copy of the input that the orchestrator works on *)

Lemma loadSource_spec (img : Canvas) :
  usable img ->
  exists sourceCanvas,
    (forall k, loadSource (Some img) k = (Ok sourceCanvas, k)) /\
    same_picture sourceCanvas img.
Proof.
  intros [Hw Hh]. unfold loadSource, getContext2d, get_object, bind, ret.
  rewrite fresh_canvas by lia.
  eexists. split; [intros k; rewrite drawImage_ok by lia; reflexivity |].
  split; [reflexivity |]. split; [reflexivity |].
  intros x y.
  destruct (in_bounds (width img) (height img) x y) eqn:E.
  - apply in_bounds_true in E. destruct E as [HX HY].
    rewrite (paint_whole_pixel _ _ x y (inject_Z x + (1 # 2)) (inject_Z y + (1 # 2)));
      try lia; try (cbn [blank ctm identity ma mb mc md me mf]; ring);
      try (cbn [blank width height]; lia).
    + now rewrite !Qfloor_centre.
    + intros. apply getPixel_blank.
  - rewrite (getPixel_outside img) by exact E.
    now apply getPixel_outside.
Qed.

Lemma loadSource_absent (k : Console) :
  loadSource None k = (Throw TypeError, k).
Proof. reflexivity. Qed.

Lemma loadSource_empty (img : Canvas) (k : Console) :
  width img <= 0 \/ height img <= 0 ->
  loadSource (Some img) k = (Throw InvalidStateError, k).
Proof.
  intros H. unfold loadSource, getContext2d, get_object, bind, ret.
  now apply drawImage_empty.
Qed.

(** ** The orchestrator on a usable input *)

Lemma same_picture_usable (c1 c2 : Canvas) :
  same_picture c1 c2 -> usable c2 -> usable c1.
Proof. intros (Hw & Hh & _). unfold usable. now rewrite Hw, Hh. Qed.

(** On an input with pixels [generateDiagonal] is its two branches run on the
    input itself: the copy it draws first shows the same picture. *)
Lemma generateDiagonal_usable (img : Canvas) (direction : string)
    (shearAmount : Q) (k : Console) :
  usable img ->
  generateDiagonal (Some img) direction shearAmount k =
  if negb ((height img mod 4 =? 0) && (256 <=? height img)) then
    applyShearTransform img direction shearAmount (k ++ [warning])%list
  else
    (baseRow <- (if (direction =? "ne")%string || (direction =? "nw")%string
                 then extractRow img 2 else extractRow img 0) ;;
     applyShearTransform baseRow direction shearAmount) k.
Proof.
  intros Hu. destruct (loadSource_spec img Hu) as (src & Hload & Hs).
  pose proof (same_picture_usable _ _ Hs Hu) as Hsrc.
  unfold generateDiagonal. unfold bind at 1. rewrite Hload.
  destruct Hs as (Hw & Hh & Hp). rewrite Hh.
  destruct (negb ((height img mod 4 =? 0) && (256 <=? height img))).
  - unfold bind, console_warn.
    apply applyShearTransform_same_picture; [exact Hsrc | repeat split; assumption].
  - unfold bind.
    destruct ((direction =? "ne")%string || (direction =? "nw")%string);
      rewrite (extractRow_same_picture src img) by (try exact Hsrc; repeat split; assumption);
      reflexivity.
Qed.

(** ** Properties of the shear transformer *)

(** Replace the argument of a floor by the equal rational [q]. *)
Ltac floor_to q :=
  match goal with
  | |- context [Qfloor ?p] =>
      progress (rewrite (Qfloor_eq p q) by (ring || (field; discriminate)))
  end.

(** C8: for every input buffer with pixels, every direction and every shear
    amount, [applyShearTransform] returns an output buffer with the width and
    the height of its input. *)
Theorem applyShearTransform_keeps_size (src : Canvas) (direction : string)
    (shearAmount : Q) (k : Console) :
  usable src ->
  exists out,
    applyShearTransform src direction shearAmount k = (Ok out, k) /\
    width out = width src /\ height out = height src.
Proof.
  intros Hu.
  destruct (applyShearTransform_spec src direction shearAmount Hu)
    as (out & Hrun & Hw & Hh & _).
  exists out. auto.
Qed.

Lemma applyShearTransform_keeps_size_witness :
  exists out,
    applyShearTransform grid4 "nw" DIAGONAL_SHEAR_AMOUNT [] = (Ok out, []) /\
    width out = width grid4 /\ height out = height grid4.
Proof.
  apply (applyShearTransform_keeps_size grid4 "nw" DIAGONAL_SHEAR_AMOUNT []).
  unfold usable. cbn [grid4 picture width height]. lia.
Defined.

(** With shear amount 0 both matrices are the identity up to a zero offset. *)
Lemma applyShearTransform_zero (src : Canvas) (direction : string) :
  usable src ->
  exists out,
    (forall k, applyShearTransform src direction 0 k = (Ok out, k)) /\
    same_picture out src.
Proof.
  intros Hu.
  destruct (applyShearTransform_spec src direction 0 Hu)
    as (out & Hrun & Hw & Hh & Hpix).
  exists out. repeat split; auto.
  intros x y.
  destruct (in_bounds (width src) (height src) x y) eqn:E.
  - apply in_bounds_true in E. destruct E as [HX HY].
    rewrite Hpix by assumption. unfold shear_preimage.
    destruct ((direction =? "ne")%string || (direction =? "se")%string);
      cbn [fst snd].
    + floor_to (inject_Z y + (1 # 2))%Q.
      now rewrite Qfloor_centre.
    + floor_to (inject_Z x + (1 # 2))%Q.
      floor_to (inject_Z y + (1 # 2))%Q.
      now rewrite !Qfloor_centre.
  - rewrite (getPixel_outside src) by exact E.
    apply getPixel_outside. now rewrite Hw, Hh.
Qed.

(** C5: with shear amount 0 the transform is the identity, for every
    direction: the output has the size of the input and shows the same pixel
    at every position. *)
Theorem applyShearTransform_zero_identity (src : Canvas) (direction : string)
    (k : Console) :
  usable src ->
  exists out,
    applyShearTransform src direction 0 k = (Ok out, k) /\
    width out = width src /\ height out = height src /\
    forall x y, getPixel out x y = getPixel src x y.
Proof.
  intros Hu.
  destruct (applyShearTransform_zero src direction Hu) as (out & Hrun & Hw & Hh & Hpix).
  exists out. auto.
Qed.

Lemma applyShearTransform_zero_identity_witness :
  exists out,
    applyShearTransform grid4 "sw" 0 [] = (Ok out, []) /\
    width out = width grid4 /\ height out = height grid4 /\
    forall x y, getPixel out x y = getPixel grid4 x y.
Proof.
  apply (applyShearTransform_zero_identity grid4 "sw" []).
  unfold usable. cbn [grid4 picture width height]. lia.
Defined.

(** C1, evaluated at a 4 by 4 canvas whose only opaque pixel is at (0, 2),
    sheared by 1/2 toward [ne].  A horizontal shear [x' = x + 0.5 * y] would
    show that pixel at (1, 2).  The matrix that the function passes to
    [transform] has the shear amount in its second slot, the [b] of
    [y' = b*x + d*y + f], so the shear is vertical: column 0 does not move,
    the pixel stays at (0, 2), and (1, 2) is transparent. *)
Theorem applyShearTransform_ne_shears_vertically :
  exists out,
    applyShearTransform dot4 "ne" (1 # 2) [] = (Ok out, []) /\
    getPixel dot4 0 2 = shade 255 /\
    getPixel out 1 2 = transparent /\
    getPixel out 0 2 = shade 255.
Proof.
  eexists. split; [vm_compute; reflexivity |].
  repeat split; vm_compute; reflexivity.
Qed.

(** ** Properties of the row extractor *)

(** C4: for every sheet with pixels whose height is divisible by 4 and every
    row index in 0..3, [extractRow] returns a buffer of the width of the sheet
    and a quarter of its height, and each of its pixels is the pixel of the
    sheet at the same column, [rowIndex * rowHeight] lines further down. *)
Theorem extractRow_is_crop (sheet : Canvas) (rowIndex : Z) (k : Console) :
  usable sheet ->
  height sheet mod 4 = 0 ->
  0 <= rowIndex <= 3 ->
  exists row,
    extractRow sheet rowIndex k = (Ok row, k) /\
    width row = width sheet /\
    height row = height sheet / 4 /\
    forall x y, 0 <= x < width sheet -> 0 <= y < height sheet / 4 ->
      getPixel row x y = getPixel sheet x (rowIndex * (height sheet / 4) + y).
Proof.
  intros Hu Hdiv Hrow.
  destruct (extractRow_spec sheet rowIndex Hu) as (row & Hrun & Hw & Hh & Hpix).
  exists row. repeat split; auto.
  intros x y Hx Hy. rewrite Hpix by assumption.
  f_equal.
  rewrite (Qfloor_eq _ (inject_Z (rowIndex * (height sheet / 4) + y) + (1 # 2))).
  - apply Qfloor_centre.
  - rewrite (quarter_exact _ Hdiv), inject_Z_plus, inject_Z_mult. ring.
Qed.

Lemma extractRow_is_crop_witness :
  exists row,
    extractRow sheet256 2 [] = (Ok row, []) /\
    width row = width sheet256 /\
    height row = height sheet256 / 4 /\
    forall x y, 0 <= x < width sheet256 -> 0 <= y < height sheet256 / 4 ->
      getPixel row x y = getPixel sheet256 x (2 * (height sheet256 / 4) + y).
Proof.
  apply (extractRow_is_crop sheet256 2 []).
  - unfold usable. cbn [sheet256 picture width height]. lia.
  - reflexivity.
  - lia.
Defined.

(** ** Properties of the orchestrator *)

Lemma eqb_other (d t : string) : d <> t -> (d =? t)%string = false.
Proof. intros H. now apply String.eqb_neq. Qed.

Lemma isLPC_true (h : Z) :
  h mod 4 = 0 -> 256 <= h -> negb ((h mod 4 =? 0) && (256 <=? h)) = false.
Proof.
  intros H1 H2. rewrite H1. cbn [Z.eqb andb].
  replace (256 <=? h) with true by (symmetry; apply Z.leb_le; lia).
  reflexivity.
Qed.

Lemma isLPC_false (h : Z) :
  h mod 4 <> 0 \/ h < 256 -> negb ((h mod 4 =? 0) && (256 <=? h)) = true.
Proof.
  intros [H | H].
  - apply Z.eqb_neq in H. now rewrite H.
  - replace (256 <=? h) with false by (symmetry; apply Z.leb_gt; lia).
    now rewrite andb_false_r.
Qed.

(** C2: on a sheet that follows the convention (height divisible by 4 and at
    least 256) [generateDiagonal] shears the North row, index 2, for [ne] and
    [nw], and the South row, index 0, for [se] and [sw]. *)
Theorem generateDiagonal_row_selection (sheet : Canvas) (shearAmount : Q)
    (k : Console) :
  usable sheet ->
  height sheet mod 4 = 0 ->
  256 <= height sheet ->
  generateDiagonal (Some sheet) "ne" shearAmount k
    = (baseRow <- extractRow sheet 2 ;; applyShearTransform baseRow "ne" shearAmount) k /\
  generateDiagonal (Some sheet) "nw" shearAmount k
    = (baseRow <- extractRow sheet 2 ;; applyShearTransform baseRow "nw" shearAmount) k /\
  generateDiagonal (Some sheet) "se" shearAmount k
    = (baseRow <- extractRow sheet 0 ;; applyShearTransform baseRow "se" shearAmount) k /\
  generateDiagonal (Some sheet) "sw" shearAmount k
    = (baseRow <- extractRow sheet 0 ;; applyShearTransform baseRow "sw" shearAmount) k.
Proof.
  intros Hu Hdiv Hmin.
  repeat split; rewrite generateDiagonal_usable by exact Hu;
    rewrite isLPC_true by assumption; reflexivity.
Qed.

Lemma generateDiagonal_row_selection_witness :
  generateDiagonal (Some sheet256) "ne" DIAGONAL_SHEAR_AMOUNT []
    = (baseRow <- extractRow sheet256 2 ;;
       applyShearTransform baseRow "ne" DIAGONAL_SHEAR_AMOUNT) [] /\
  generateDiagonal (Some sheet256) "nw" DIAGONAL_SHEAR_AMOUNT []
    = (baseRow <- extractRow sheet256 2 ;;
       applyShearTransform baseRow "nw" DIAGONAL_SHEAR_AMOUNT) [] /\
  generateDiagonal (Some sheet256) "se" DIAGONAL_SHEAR_AMOUNT []
    = (baseRow <- extractRow sheet256 0 ;;
       applyShearTransform baseRow "se" DIAGONAL_SHEAR_AMOUNT) [] /\
  generateDiagonal (Some sheet256) "sw" DIAGONAL_SHEAR_AMOUNT []
    = (baseRow <- extractRow sheet256 0 ;;
       applyShearTransform baseRow "sw" DIAGONAL_SHEAR_AMOUNT) [].
Proof.
  apply (generateDiagonal_row_selection sheet256 DIAGONAL_SHEAR_AMOUNT []).
  - unfold usable. cbn [sheet256 picture width height]. lia.
  - reflexivity.
  - cbn [sheet256 picture height]. lia.
Defined.

(** C3: on an input buffer with pixels whose height is not divisible by 4 or
    is below 256, [generateDiagonal] does not throw: it returns what
    [applyShearTransform] returns on the whole buffer, a buffer of the width
    and height of the input, and it writes one warning to the console. *)
Theorem generateDiagonal_fallback (img : Canvas) (direction : string)
    (shearAmount : Q) (k : Console) :
  usable img ->
  height img mod 4 <> 0 \/ height img < 256 ->
  exists out,
    generateDiagonal (Some img) direction shearAmount k = (Ok out, k ++ [warning])%list /\
    applyShearTransform img direction shearAmount k = (Ok out, k) /\
    width out = width img /\ height out = height img.
Proof.
  intros Hu Hbad.
  destruct (applyShearTransform_spec img direction shearAmount Hu)
    as (out & Hrun & Hw & Hh & _).
  exists out. rewrite generateDiagonal_usable by exact Hu.
  rewrite isLPC_false by exact Hbad.
  rewrite !Hrun. auto.
Qed.

Lemma generateDiagonal_fallback_witness :
  exists out,
    generateDiagonal (Some grid4) "ne" DIAGONAL_SHEAR_AMOUNT []
      = (Ok out, [] ++ [warning])%list /\
    applyShearTransform grid4 "ne" DIAGONAL_SHEAR_AMOUNT [] = (Ok out, []) /\
    width out = width grid4 /\ height out = height grid4.
Proof.
  apply (generateDiagonal_fallback grid4 "ne" DIAGONAL_SHEAR_AMOUNT []).
  - unfold usable. cbn [grid4 picture width height]. lia.
  - right. cbn [grid4 picture height]. lia.
Defined.

(** On an input with pixels [generateDiagonal] returns a buffer, whatever the
    direction token; the console gains the warning on the fallback path and
    nothing otherwise. *)
Lemma generateDiagonal_returns (img : Canvas) (direction : string)
    (shearAmount : Q) (k : Console) :
  usable img ->
  exists out k',
    generateDiagonal (Some img) direction shearAmount k = (Ok out, k').
Proof.
  intros Hu. rewrite generateDiagonal_usable by exact Hu.
  destruct (negb ((height img mod 4 =? 0) && (256 <=? height img))) eqn:E.
  - destruct (applyShearTransform_spec img direction shearAmount Hu)
      as (out & Hrun & _).
    exists out, (k ++ [warning])%list. apply Hrun.
  - apply negb_false_iff, andb_true_iff in E. destruct E as [_ Hmin].
    apply Z.leb_le in Hmin.
    assert (Hrow : forall i, exists row,
               (forall k0, extractRow img i k0 = (Ok row, k0)) /\ usable row).
    { intros i. destruct (extractRow_spec img i Hu) as (row & Hrun & Hw & Hh & _).
      exists row. split; [exact Hrun |].
      destruct Hu as [Hwu Hhu]. unfold usable. rewrite Hw, Hh. split; [lia |].
      split; [apply Z.div_str_pos; lia | apply Z.div_lt_upper_bound; lia]. }
    unfold bind.
    destruct ((direction =? "ne")%string || (direction =? "nw")%string).
    + destruct (Hrow 2) as (row & Hrun & Hur). rewrite Hrun.
      destruct (applyShearTransform_spec row direction shearAmount Hur)
        as (out & Hout & _).
      exists out, k. apply Hout.
    + destruct (Hrow 0) as (row & Hrun & Hur). rewrite Hrun.
      destruct (applyShearTransform_spec row direction shearAmount Hur)
        as (out & Hout & _).
      exists out, k. apply Hout.
Qed.

(** C10: on a sheet that follows the convention, a direction token that is
    none of [ne], [nw], [se], [sw] raises no error and writes nothing to the
    console: the South row, index 0, is extracted and sheared through the
    leftward branch, so the result is the one for [sw]. *)
Theorem generateDiagonal_other_token_is_sw (sheet : Canvas) (direction : string)
    (shearAmount : Q) (k : Console) :
  usable sheet ->
  height sheet mod 4 = 0 ->
  256 <= height sheet ->
  direction <> "ne" -> direction <> "nw" ->
  direction <> "se" -> direction <> "sw" ->
  exists baseRow out,
    extractRow sheet 0 k = (Ok baseRow, k) /\
    applyShearTransform baseRow direction shearAmount k
      = applyShearTransform baseRow "sw" shearAmount k /\
    applyShearTransform baseRow "sw" shearAmount k = (Ok out, k) /\
    generateDiagonal (Some sheet) direction shearAmount k = (Ok out, k) /\
    generateDiagonal (Some sheet) "sw" shearAmount k = (Ok out, k).
Proof.
  intros Hu Hdiv Hmin Hne Hnw Hse Hsw.
  destruct (extractRow_spec sheet 0 Hu) as (row & Hrun & Hw & Hh & _).
  assert (Hur : usable row).
  { destruct Hu as [Hwu Hhu]. unfold usable. rewrite Hw, Hh. split; [lia |].
    split; [apply Z.div_str_pos; lia | apply Z.div_lt_upper_bound; lia]. }
  destruct (applyShearTransform_spec row "sw" shearAmount Hur) as (out & Hout & _).
  assert (Hsame : applyShearTransform row direction shearAmount k
                  = applyShearTransform row "sw" shearAmount k).
  { unfold applyShearTransform.
    now rewrite (eqb_other direction "ne"), (eqb_other direction "se"). }
  exists row, out.
  split; [apply Hrun |]. split; [exact Hsame |]. split; [apply Hout |].
  rewrite !generateDiagonal_usable by exact Hu.
  rewrite isLPC_true by assumption.
  rewrite (eqb_other direction "ne"), (eqb_other direction "nw") by assumption.
  unfold bind. cbn [orb String.eqb Ascii.eqb Bool.eqb andb]. rewrite Hrun.
  rewrite Hsame. split; apply Hout.
Qed.

Lemma generateDiagonal_other_token_is_sw_witness :
  exists baseRow out,
    extractRow sheet256 0 [] = (Ok baseRow, []) /\
    applyShearTransform baseRow "north-east" DIAGONAL_SHEAR_AMOUNT []
      = applyShearTransform baseRow "sw" DIAGONAL_SHEAR_AMOUNT [] /\
    applyShearTransform baseRow "sw" DIAGONAL_SHEAR_AMOUNT [] = (Ok out, []) /\
    generateDiagonal (Some sheet256) "north-east" DIAGONAL_SHEAR_AMOUNT [] = (Ok out, []) /\
    generateDiagonal (Some sheet256) "sw" DIAGONAL_SHEAR_AMOUNT [] = (Ok out, []).
Proof.
  apply (generateDiagonal_other_token_is_sw sheet256 "north-east"
           DIAGONAL_SHEAR_AMOUNT []).
  - unfold usable. cbn [sheet256 picture width height]. lia.
  - reflexivity.
  - cbn [sheet256 picture height]. lia.
  - discriminate.
  - discriminate.
  - discriminate.
  - discriminate.
Defined.

(** C7: on an input with pixels [generateAllDiagonals] returns an object whose
    keys are exactly [ne], [nw], [se], [sw], and [generateAll8Directions] one
    whose keys are exactly [n], [e], [s], [w], [ne], [nw], [se], [sw]; the
    entries [n], [e], [s], [w] of the latter are the buffers that [extractRow]
    returns on the input for rows 2, 3, 0 and 1 (on every such input, so on
    the sheets that follow the convention). *)
Theorem batch_objects (img : Canvas) (shearAmount : Q) (k : Console) :
  usable img ->
  (exists o k',
     generateAllDiagonals (Some img) shearAmount k = (Ok o, k') /\
     keys o = ["ne"; "nw"; "se"; "sw"]) /\
  (exists o k',
     generateAll8Directions (Some img) shearAmount k = (Ok o, k') /\
     keys o = ["n"; "e"; "s"; "w"; "ne"; "nw"; "se"; "sw"] /\
     exists rn re rs rw,
       extractRow img 2 k = (Ok rn, k) /\ get o "n" = Some rn /\
       extractRow img 3 k = (Ok re, k) /\ get o "e" = Some re /\
       extractRow img 0 k = (Ok rs, k) /\ get o "s" = Some rs /\
       extractRow img 1 k = (Ok rw, k) /\ get o "w" = Some rw).
Proof.
  intros Hu. split.
  - unfold generateAllDiagonals, bind, ret.
    destruct (generateDiagonal_returns img "ne" shearAmount k Hu) as (c1 & k1 & H1).
    rewrite H1.
    destruct (generateDiagonal_returns img "nw" shearAmount k1 Hu) as (c2 & k2 & H2).
    rewrite H2.
    destruct (generateDiagonal_returns img "se" shearAmount k2 Hu) as (c3 & k3 & H3).
    rewrite H3.
    destruct (generateDiagonal_returns img "sw" shearAmount k3 Hu) as (c4 & k4 & H4).
    rewrite H4.
    eexists. eexists. split; reflexivity.
  - destruct (loadSource_spec img Hu) as (src & Hload & Hs).
    pose proof (same_picture_usable _ _ Hs Hu) as Hsrc.
    destruct (extractRow_spec img 2 Hu) as (rn & Hn & _).
    destruct (extractRow_spec img 3 Hu) as (re & He & _).
    destruct (extractRow_spec img 0 Hu) as (rs & Hs0 & _).
    destruct (extractRow_spec img 1 Hu) as (rw & Hw1 & _).
    unfold generateAll8Directions, bind, ret. rewrite Hload.
    rewrite (extractRow_same_picture src img) by assumption. rewrite Hn.
    rewrite (extractRow_same_picture src img) by assumption. rewrite He.
    rewrite (extractRow_same_picture src img) by assumption. rewrite Hs0.
    rewrite (extractRow_same_picture src img) by assumption. rewrite Hw1.
    destruct (generateDiagonal_returns img "ne" shearAmount k Hu) as (c1 & k1 & H1).
    rewrite H1.
    destruct (generateDiagonal_returns img "nw" shearAmount k1 Hu) as (c2 & k2 & H2).
    rewrite H2.
    destruct (generateDiagonal_returns img "se" shearAmount k2 Hu) as (c3 & k3 & H3).
    rewrite H3.
    destruct (generateDiagonal_returns img "sw" shearAmount k3 Hu) as (c4 & k4 & H4).
    rewrite H4.
    eexists. eexists. split; [reflexivity |]. split; [reflexivity |].
    exists rn, re, rs, rw. repeat split; reflexivity.
Qed.

Lemma batch_objects_witness :
  (exists o k',
     generateAllDiagonals (Some sheet256) DIAGONAL_SHEAR_AMOUNT [] = (Ok o, k') /\
     keys o = ["ne"; "nw"; "se"; "sw"]) /\
  (exists o k',
     generateAll8Directions (Some sheet256) DIAGONAL_SHEAR_AMOUNT [] = (Ok o, k') /\
     keys o = ["n"; "e"; "s"; "w"; "ne"; "nw"; "se"; "sw"] /\
     exists rn re rs rw,
       extractRow sheet256 2 [] = (Ok rn, []) /\ get o "n" = Some rn /\
       extractRow sheet256 3 [] = (Ok re, []) /\ get o "e" = Some re /\
       extractRow sheet256 0 [] = (Ok rs, []) /\ get o "s" = Some rs /\
       extractRow sheet256 1 [] = (Ok rw, []) /\ get o "w" = Some rw).
Proof.
  apply (batch_objects sheet256 DIAGONAL_SHEAR_AMOUNT []).
  unfold usable. cbn [sheet256 picture width height]. lia.
Defined.

(** ** Errors *)

(** C9 as stated fails on a direction token outside the enumeration: on the
    conforming sheet the token [up] raises no error, a buffer is returned. *)
Lemma generateDiagonal_unknown_token_no_error :
  ~ In "up" ["n"; "e"; "s"; "w"; "ne"; "nw"; "se"; "sw"] /\
  exists out,
    generateDiagonal (Some sheet256) "up" DIAGONAL_SHEAR_AMOUNT [] = (Ok out, []).
Proof.
  split.
  - cbn [In]. intros H. repeat destruct H as [H | H]; try discriminate H. exact H.
  - eexists. vm_compute. reflexivity.
Qed.

(** C9, amended: [generateDiagonal] fails for an absent input (TypeError, on
    reading its width) and for a canvas input with a zero dimension
    (InvalidStateError, on drawing it); on an input with pixels it returns a
    buffer for every direction token, so no token raises an error. *)
Theorem generateDiagonal_errors (img : Canvas) (direction : string)
    (shearAmount : Q) (k : Console) :
  generateDiagonal None direction shearAmount k = (Throw TypeError, k) /\
  (width img = 0 \/ height img = 0 ->
   generateDiagonal (Some img) direction shearAmount k = (Throw InvalidStateError, k)) /\
  (usable img ->
   exists out k', generateDiagonal (Some img) direction shearAmount k = (Ok out, k')).
Proof.
  split; [reflexivity |]. split.
  - intros H. unfold generateDiagonal, bind.
    rewrite loadSource_empty by lia. reflexivity.
  - apply generateDiagonal_returns.
Qed.

Lemma generateDiagonal_errors_witness :
  generateDiagonal (Some empty0) "ne" DIAGONAL_SHEAR_AMOUNT []
    = (Throw InvalidStateError, []) /\
  exists out k',
    generateDiagonal (Some sheet256) "up" DIAGONAL_SHEAR_AMOUNT [] = (Ok out, k').
Proof.
  split.
  - apply (generateDiagonal_errors empty0 "ne" DIAGONAL_SHEAR_AMOUNT []).
    left. reflexivity.
  - apply (generateDiagonal_errors sheet256 "up" DIAGONAL_SHEAR_AMOUNT []).
    unfold usable. cbn [sheet256 picture width height]. lia.
Defined.

(** ** Positive and negative shear *)

Lemma sym4_symmetric : horizontally_symmetric sym4.
Proof.
  intros x y.
  destruct (in_bounds 4 4 x y) eqn:E.
  - apply in_bounds_true in E.
    assert (Hx : x = 0 \/ x = 1 \/ x = 2 \/ x = 3) by lia.
    assert (Hy : y = 0 \/ y = 1 \/ y = 2 \/ y = 3) by lia.
    destruct Hx as [-> | [-> | [-> | ->]]];
      destruct Hy as [-> | [-> | [-> | ->]]]; reflexivity.
  - rewrite (getPixel_outside sym4 x y) by exact E.
    symmetry. apply getPixel_outside.
    destruct (in_bounds (width sym4) (height sym4) (width sym4 - 1 - x) y) eqn:E2;
      [| reflexivity].
    apply in_bounds_true in E2. cbn [sym4 picture width height] in E2.
    rewrite in_bounds_intro in E by lia. discriminate E.
Qed.

(** C6 as stated fails: the symmetric canvas sheared by 1/4 toward [ne] and
    toward [nw] gives two outputs that are not mirror images.  Column 3 of the
    [ne] output is opaque on line 1, column 0 of the [nw] output is
    transparent: the leftward branch moves the picture right by
    [width * shearAmount], here one pixel. *)
Lemma shear_outputs_not_mirrored :
  horizontally_symmetric sym4 /\
  exists pos neg,
    applyShearTransform sym4 "ne" (1 # 4) [] = (Ok pos, []) /\
    applyShearTransform sym4 "nw" (1 # 4) [] = (Ok neg, []) /\
    ~ mirror_images pos neg.
Proof.
  split; [exact sym4_symmetric |].
  eexists. eexists. split; [vm_compute; reflexivity |].
  split; [vm_compute; reflexivity |].
  intros (_ & _ & H). specialize (H 3 1). vm_compute in H. discriminate H.
Qed.

(** C6, amended: with shear amount 0 the outputs for any two direction
    tokens, so for a rightward one ([ne], [se]) and a leftward one ([nw],
    [sw]), are mirror images of each other, given a horizontally symmetric
    source. *)
Theorem shear_zero_outputs_mirrored (src : Canvas) (dpos dneg : string)
    (k : Console) :
  usable src ->
  horizontally_symmetric src ->
  exists pos neg,
    applyShearTransform src dpos 0 k = (Ok pos, k) /\
    applyShearTransform src dneg 0 k = (Ok neg, k) /\
    mirror_images pos neg.
Proof.
  intros Hu Hsym.
  destruct (applyShearTransform_zero src dpos Hu) as (pos & Hp & Hwp & Hhp & Hpp).
  destruct (applyShearTransform_zero src dneg Hu) as (neg & Hn & Hwn & Hhn & Hpn).
  exists pos, neg. split; [apply Hp |]. split; [apply Hn |].
  split; [congruence |]. split; [congruence |].
  intros x y. rewrite Hpp, Hpn, Hwn. apply Hsym.
Qed.

Lemma shear_zero_outputs_mirrored_witness :
  exists pos neg,
    applyShearTransform sym4 "se" 0 [] = (Ok pos, []) /\
    applyShearTransform sym4 "sw" 0 [] = (Ok neg, []) /\
    mirror_images pos neg.
Proof.
  apply (shear_zero_outputs_mirrored sym4 "se" "sw" []).
  - unfold usable. cbn [sym4 picture width height]. lia.
  - exact sym4_symmetric.
Defined.

(** ** Further properties: the pixel mapping of the shear *)


Lemma usable_of_size (c1 c2 : Canvas) :
  width c1 = width c2 -> height c1 = height c2 -> usable c2 -> usable c1.
Proof. intros Hw Hh. unfold usable. now rewrite Hw, Hh. Qed.









(** ** Further properties: rows *)

(** On a sheet whose height is a multiple of 4 a row is a band of the sheet. *)
Lemma extractRow_aligned (sheet : Canvas) (rowIndex : Z) :
  usable sheet ->
  height sheet mod 4 = 0 ->
  exists row,
    (forall k, extractRow sheet rowIndex k = (Ok row, k)) /\
    width row = width sheet /\
    height row = height sheet / 4 /\
    forall x y, 0 <= x < width sheet -> 0 <= y < height sheet / 4 ->
      getPixel row x y = getPixel sheet x (rowIndex * (height sheet / 4) + y).
Proof.
  intros Hu Hdiv.
  destruct (extractRow_spec sheet rowIndex Hu) as (row & Hrun & Hw & Hh & Hpix).
  exists row. repeat split; auto.
  intros x y Hx Hy. rewrite Hpix by assumption.
  f_equal.
  rewrite (Qfloor_eq _ (inject_Z (rowIndex * (height sheet / 4) + y) + (1 # 2))).
  - apply Qfloor_centre.
  - rewrite (quarter_exact _ Hdiv), inject_Z_plus, inject_Z_mult. ring.
Qed.

Lemma Qfloor_eighths (n : Z) : Qfloor (inject_Z n / 8) = n / 8.
Proof.
  unfold Qfloor, Qdiv, Qmult, Qinv, inject_Z. cbn [Qnum Qden].
  now rewrite Z.mul_1_r.
Qed.

(** The line of the sheet that [extractRow] samples, as a quotient. *)
Lemma row_line (rowIndex h Y : Z) :
  Qfloor (inject_Z rowIndex * (inject_Z h / 4) + (inject_Z Y + (1 # 2)))
  = (2 * rowIndex * h + 8 * Y + 4) / 8.
Proof.
  rewrite <- Qfloor_eighths. apply Qfloor_eq.
  rewrite !inject_Z_plus, !inject_Z_mult. field.
Qed.

(** X5: a row index outside 0..3 is no error: [extractRow] returns a buffer of
    the usual size, the width of the sheet by a quarter of its height rounded
    down, in which every pixel is transparent. *)
Theorem extractRow_index_out_of_range (sheet : Canvas) (rowIndex : Z)
    (k : Console) :
  usable sheet ->
  rowIndex < 0 \/ 4 <= rowIndex ->
  exists row,
    extractRow sheet rowIndex k = (Ok row, k) /\
    width row = width sheet /\
    height row = height sheet / 4 /\
    forall x y, getPixel row x y = transparent.
Proof.
  intros Hu Hout.
  destruct (extractRow_spec sheet rowIndex Hu) as (row & Hrun & Hw & Hh & Hpix).
  exists row. repeat split; auto.
  intros x y.
  destruct (in_bounds (width sheet) (height sheet / 4) x y) eqn:E.
  - apply in_bounds_true in E. destruct E as [Hx Hy].
    rewrite Hpix by assumption. rewrite row_line.
    apply getPixel_outside.
    destruct Hu as [_ Hhu].
    pose proof (Z.mul_div_le (height sheet) 4 ltac:(lia)) as Hq.
    apply not_true_is_false. intros T. apply in_bounds_true in T.
    destruct T as [_ [T1 T2]].
    destruct Hout as [Hlo | Hhi].
    + assert (2 * rowIndex * height sheet + 8 * y + 4 < 0) by nia.
      assert ((2 * rowIndex * height sheet + 8 * y + 4) / 8 < 0)
        by (apply Z.div_lt_upper_bound; lia).
      lia.
    + assert (8 * height sheet <= 2 * rowIndex * height sheet + 8 * y + 4) by nia.
      assert (height sheet <= (2 * rowIndex * height sheet + 8 * y + 4) / 8)
        by (apply Z.div_le_lower_bound; lia).
      lia.
  - apply getPixel_outside. now rewrite Hw, Hh.
Qed.

Lemma extractRow_index_out_of_range_witness :
  exists row,
    extractRow sheet256 4 [] = (Ok row, []) /\
    width row = width sheet256 /\
    height row = height sheet256 / 4 /\
    forall x y, getPixel row x y = transparent.
Proof.
  apply (extractRow_index_out_of_range sheet256 4 []).
  - unfold usable. cbn [sheet256 picture width height]. lia.
  - right. lia.
Defined.

(** X6: the four rows tile a sheet whose height is a multiple of 4: the pixel
    of the sheet at [(x, y)] is the pixel [(x, y mod rowHeight)] of the row
    that [extractRow] returns for the index [y / rowHeight], and that index is
    one of 0..3. *)
Theorem rows_tile_sheet (sheet : Canvas) (x y : Z) (k : Console) :
  usable sheet ->
  height sheet mod 4 = 0 ->
  0 <= x < width sheet ->
  0 <= y < height sheet ->
  0 <= y / (height sheet / 4) <= 3 /\
  exists row,
    extractRow sheet (y / (height sheet / 4)) k = (Ok row, k) /\
    getPixel row x (y mod (height sheet / 4)) = getPixel sheet x y.
Proof.
  intros Hu Hdiv Hx Hy.
  assert (Hh4 : height sheet = 4 * (height sheet / 4))
    by (apply Z.div_exact; lia).
  assert (Hpos : 0 < height sheet / 4) by lia.
  split.
  - split.
    + apply Z.div_pos; lia.
    + assert (y / (height sheet / 4) < 4)
        by (apply Z.div_lt_upper_bound; lia).
      lia.
  - destruct (extractRow_aligned sheet (y / (height sheet / 4)) Hu Hdiv)
      as (row & Hrun & _ & _ & Hpix).
    exists row. split; [apply Hrun |].
    rewrite Hpix.
    + f_equal. rewrite Z.mul_comm. symmetry. apply Z.div_mod. lia.
    + exact Hx.
    + apply Z.mod_pos_bound. exact Hpos.
Qed.

Lemma rows_tile_sheet_witness :
  0 <= 200 / (height sheet256 / 4) <= 3 /\
  exists row,
    extractRow sheet256 (200 / (height sheet256 / 4)) [] = (Ok row, []) /\
    getPixel row 1 (200 mod (height sheet256 / 4)) = getPixel sheet256 1 200.
Proof.
  apply (rows_tile_sheet sheet256 1 200 []).
  - unfold usable. cbn [sheet256 picture width height]. lia.
  - reflexivity.
  - cbn [sheet256 picture width]. lia.
  - cbn [sheet256 picture height]. lia.
Defined.

(** ** Further properties: the orchestrator and the batch functions *)

Lemma row_usable (sheet row : Canvas) :
  usable sheet -> 256 <= height sheet ->
  width row = width sheet -> height row = height sheet / 4 -> usable row.
Proof.
  intros [Hw Hh] Hmin Ew Eh. unfold usable. rewrite Ew, Eh. split; [lia |].
  split; [apply Z.div_str_pos; lia | apply Z.div_lt_upper_bound; lia].
Qed.

Lemma conforming_true (c : Canvas) :
  conforming c = true -> height c mod 4 = 0 /\ 256 <= height c.
Proof.
  unfold conforming. intros H. apply andb_true_iff in H.
  destruct H as [H1 H2]. apply Z.eqb_eq in H1. apply Z.leb_le in H2. auto.
Qed.

(** One call of [generateDiagonal] on an input with pixels: the buffer does
    not depend on the console, and the console gains [fallback_warnings]. *)
Lemma generateDiagonal_run (img : Canvas) (direction : string) (shearAmount : Q) :
  usable img ->
  exists out,
    (forall k, generateDiagonal (Some img) direction shearAmount k
               = (Ok out, (k ++ fallback_warnings img)%list)) /\
    width out = width img /\
    height out = (if conforming img then height img / 4 else height img) /\
    (conforming img = false ->
     forall k, applyShearTransform img direction shearAmount k = (Ok out, k)) /\
    (conforming img = true ->
     exists baseRow,
       (forall k, extractRow img (base_row_index direction) k = (Ok baseRow, k)) /\
       usable baseRow /\
       forall k, applyShearTransform baseRow direction shearAmount k = (Ok out, k)).
Proof.
  intros Hu. unfold fallback_warnings.
  destruct (conforming img) eqn:E.
  - destruct (conforming_true _ E) as [Hdiv Hmin].
    destruct (extractRow_spec img (base_row_index direction) Hu)
      as (row & Hrow & Hw & Hh & _).
    pose proof (row_usable img row Hu Hmin Hw Hh) as Hur.
    destruct (applyShearTransform_spec row direction shearAmount Hur)
      as (out & Hout & Hwo & Hho & _).
    exists out. split; [| split; [congruence | split; [congruence | split]]].
    + intros k. rewrite generateDiagonal_usable by exact Hu.
      fold (conforming img). rewrite E. cbn [negb].
      unfold bind. unfold base_row_index in Hrow.
      destruct ((direction =? "ne")%string || (direction =? "nw")%string);
        rewrite Hrow, Hout, app_nil_r; reflexivity.
    + discriminate.
    + intros _. exists row. auto.
  - destruct (applyShearTransform_spec img direction shearAmount Hu)
      as (out & Hout & Hwo & Hho & _).
    exists out. split; [| split; [exact Hwo | split; [exact Hho | split]]].
    + intros k. rewrite generateDiagonal_usable by exact Hu.
      fold (conforming img). rewrite E. cbn [negb]. apply Hout.
    + intros _. exact Hout.
    + discriminate.
Qed.



(** X8: with shear amount 0 on a conforming sheet [generateDiagonal] returns
    the cardinal row itself: a buffer that shows the same picture as the one
    [extractRow] returns for the row of the token. *)
Theorem generateDiagonal_zero_is_row (sheet : Canvas) (direction : string)
    (k : Console) :
  usable sheet ->
  height sheet mod 4 = 0 ->
  256 <= height sheet ->
  exists baseRow out,
    extractRow sheet (base_row_index direction) k = (Ok baseRow, k) /\
    generateDiagonal (Some sheet) direction 0 k = (Ok out, k) /\
    same_picture out baseRow.
Proof.
  intros Hu Hdiv Hmin.
  destruct (extractRow_spec sheet (base_row_index direction) Hu)
    as (row & Hrow & Hw & Hh & _).
  pose proof (row_usable sheet row Hu Hmin Hw Hh) as Hur.
  destruct (applyShearTransform_zero row direction Hur) as (out & Hout & Hsame).
  exists row, out. split; [apply Hrow |]. split; [| exact Hsame].
  rewrite generateDiagonal_usable by exact Hu.
  rewrite isLPC_true by assumption.
  unfold bind. unfold base_row_index in Hrow.
  destruct ((direction =? "ne")%string || (direction =? "nw")%string);
    rewrite Hrow; apply Hout.
Qed.

Lemma generateDiagonal_zero_is_row_witness :
  exists baseRow out,
    extractRow sheet256 (base_row_index "nw") [] = (Ok baseRow, []) /\
    generateDiagonal (Some sheet256) "nw" 0 [] = (Ok out, []) /\
    same_picture out baseRow.
Proof.
  apply (generateDiagonal_zero_is_row sheet256 "nw" []).
  - unfold usable. cbn [sheet256 picture width height]. lia.
  - reflexivity.
  - cbn [sheet256 picture height]. lia.
Defined.

(** X9: on the fallback path the row selection is skipped, so the four
    diagonals collapse to two: on an input with pixels that does not conform,
    [ne] and [se] give the same result, and so do [nw] and [sw]. *)
Theorem fallback_two_outputs (img : Canvas) (shearAmount : Q) (k : Console) :
  usable img ->
  height img mod 4 <> 0 \/ height img < 256 ->
  generateDiagonal (Some img) "ne" shearAmount k
    = generateDiagonal (Some img) "se" shearAmount k /\
  generateDiagonal (Some img) "nw" shearAmount k
    = generateDiagonal (Some img) "sw" shearAmount k.
Proof.
  intros Hu Hbad.
  rewrite !generateDiagonal_usable by exact Hu.
  rewrite isLPC_false by exact Hbad.
  split; reflexivity.
Qed.

Lemma fallback_two_outputs_witness :
  generateDiagonal (Some odd6) "ne" DIAGONAL_SHEAR_AMOUNT []
    = generateDiagonal (Some odd6) "se" DIAGONAL_SHEAR_AMOUNT [] /\
  generateDiagonal (Some odd6) "nw" DIAGONAL_SHEAR_AMOUNT []
    = generateDiagonal (Some odd6) "sw" DIAGONAL_SHEAR_AMOUNT [].
Proof.
  apply (fallback_two_outputs odd6 DIAGONAL_SHEAR_AMOUNT []).
  - unfold usable. cbn [odd6 picture width height]. lia.
  - left. cbn [odd6 picture height]. discriminate.
Defined.

(** Both batch functions on an input with pixels, in terms of the single
    calls they make. *)
Lemma batch_run (img : Canvas) (shearAmount : Q) :
  usable img ->
  exists rn re rs rw ne nw se sw,
    (forall k, extractRow img 2 k = (Ok rn, k)) /\
    (forall k, extractRow img 3 k = (Ok re, k)) /\
    (forall k, extractRow img 0 k = (Ok rs, k)) /\
    (forall k, extractRow img 1 k = (Ok rw, k)) /\
    (forall k, generateDiagonal (Some img) "ne" shearAmount k
               = (Ok ne, (k ++ fallback_warnings img)%list)) /\
    (forall k, generateDiagonal (Some img) "nw" shearAmount k
               = (Ok nw, (k ++ fallback_warnings img)%list)) /\
    (forall k, generateDiagonal (Some img) "se" shearAmount k
               = (Ok se, (k ++ fallback_warnings img)%list)) /\
    (forall k, generateDiagonal (Some img) "sw" shearAmount k
               = (Ok sw, (k ++ fallback_warnings img)%list)) /\
    (forall k, generateAllDiagonals (Some img) shearAmount k
               = (Ok [("ne", ne); ("nw", nw); ("se", se); ("sw", sw)],
                  ((((k ++ fallback_warnings img) ++ fallback_warnings img)
                    ++ fallback_warnings img) ++ fallback_warnings img)%list)) /\
    (forall k, generateAll8Directions (Some img) shearAmount k
               = (Ok [("n", rn); ("e", re); ("s", rs); ("w", rw);
                      ("ne", ne); ("nw", nw); ("se", se); ("sw", sw)],
                  ((((k ++ fallback_warnings img) ++ fallback_warnings img)
                    ++ fallback_warnings img) ++ fallback_warnings img)%list)).
Proof.
  intros Hu.
  destruct (extractRow_spec img 2 Hu) as (rn & Hn & _).
  destruct (extractRow_spec img 3 Hu) as (re & He & _).
  destruct (extractRow_spec img 0 Hu) as (rs & Hs0 & _).
  destruct (extractRow_spec img 1 Hu) as (rw & Hw1 & _).
  destruct (generateDiagonal_run img "ne" shearAmount Hu) as (ne & Hne & _).
  destruct (generateDiagonal_run img "nw" shearAmount Hu) as (nw & Hnw & _).
  destruct (generateDiagonal_run img "se" shearAmount Hu) as (se & Hse & _).
  destruct (generateDiagonal_run img "sw" shearAmount Hu) as (sw & Hsw & _).
  exists rn, re, rs, rw, ne, nw, se, sw.
  repeat (split; [assumption |]). split.
  - intros k. unfold generateAllDiagonals, bind, ret.
    rewrite Hne, Hnw, Hse, Hsw. reflexivity.
  - intros k.
    destruct (loadSource_spec img Hu) as (src & Hload & Hsame).
    pose proof (same_picture_usable _ _ Hsame Hu) as Hsrc.
    unfold generateAll8Directions, bind, ret. rewrite Hload.
    rewrite (extractRow_same_picture src img) by assumption. rewrite Hn.
    rewrite (extractRow_same_picture src img) by assumption. rewrite He.
    rewrite (extractRow_same_picture src img) by assumption. rewrite Hs0.
    rewrite (extractRow_same_picture src img) by assumption. rewrite Hw1.
    rewrite Hne, Hnw, Hse, Hsw. reflexivity.
Qed.

(** X10: the two batch functions agree: on an input with pixels they leave the
    same console, and the entries [ne], [nw], [se], [sw] of the object of
    [generateAll8Directions] are the entries of the object of
    [generateAllDiagonals]. *)
Theorem batch_functions_agree (img : Canvas) (shearAmount : Q) (k : Console) :
  usable img ->
  exists o4 o8 k',
    generateAllDiagonals (Some img) shearAmount k = (Ok o4, k') /\
    generateAll8Directions (Some img) shearAmount k = (Ok o8, k') /\
    get o8 "ne" = get o4 "ne" /\ get o8 "nw" = get o4 "nw" /\
    get o8 "se" = get o4 "se" /\ get o8 "sw" = get o4 "sw".
Proof.
  intros Hu.
  destruct (batch_run img shearAmount Hu)
    as (rn & re & rs & rw & ne & nw & se & sw & _ & _ & _ & _ & _ & _ & _ & _ & H4 & H8).
  eexists. eexists. eexists.
  split; [apply H4 |]. split; [apply H8 |].
  repeat split; reflexivity.
Qed.

Lemma batch_functions_agree_witness :
  exists o4 o8 k',
    generateAllDiagonals (Some odd6) DIAGONAL_SHEAR_AMOUNT [] = (Ok o4, k') /\
    generateAll8Directions (Some odd6) DIAGONAL_SHEAR_AMOUNT [] = (Ok o8, k') /\
    get o8 "ne" = get o4 "ne" /\ get o8 "nw" = get o4 "nw" /\
    get o8 "se" = get o4 "se" /\ get o8 "sw" = get o4 "sw".
Proof.
  apply (batch_functions_agree odd6 DIAGONAL_SHEAR_AMOUNT []).
  unfold usable. cbn [odd6 picture width height]. lia.
Defined.



Lemma same_buffer (A : Type) (a b : A) (k : Console) :
  (Ok a, k) = (Ok b, k) -> a = b.
Proof. intros H. now inversion H. Qed.

(** Sizes of the eight buffers of [generateAll8Directions]. *)
Lemma all8_sizes (img : Canvas) (shearAmount : Q) :
  usable img ->
  exists o,
    (forall k, generateAll8Directions (Some img) shearAmount k
               = (Ok o, ((((k ++ fallback_warnings img) ++ fallback_warnings img)
                          ++ fallback_warnings img) ++ fallback_warnings img)%list)) /\
    keys o = ["n"; "e"; "s"; "w"; "ne"; "nw"; "se"; "sw"] /\
    forall d c, get o d = Some c ->
      width c = width img /\
      (In d ["n"; "e"; "s"; "w"] -> height c = height img / 4) /\
      (In d ["ne"; "nw"; "se"; "sw"] ->
       height c = if conforming img then height img / 4 else height img).
Proof.
  intros Hu.
  destruct (batch_run img shearAmount Hu)
    as (rn & re & rs & rw & ne & nw & se & sw
        & Hn & He & Hs & Hw & Hne & Hnw & Hse & Hsw & _ & H8).
  destruct (extractRow_spec img 2 Hu) as (rn' & Hn' & Wn & Hgn & _).
  destruct (extractRow_spec img 3 Hu) as (re' & He' & We & Hge & _).
  destruct (extractRow_spec img 0 Hu) as (rs' & Hs' & Ws & Hgs & _).
  destruct (extractRow_spec img 1 Hu) as (rw' & Hw' & Ww & Hgw & _).
  destruct (generateDiagonal_run img "ne" shearAmount Hu) as (ne' & Hne' & Wne & Hgne & _).
  destruct (generateDiagonal_run img "nw" shearAmount Hu) as (nw' & Hnw' & Wnw & Hgnw & _).
  destruct (generateDiagonal_run img "se" shearAmount Hu) as (se' & Hse' & Wse & Hgse & _).
  destruct (generateDiagonal_run img "sw" shearAmount Hu) as (sw' & Hsw' & Wsw & Hgsw & _).
  assert (rn' = rn) by (apply (same_buffer _ _ _ []); rewrite <- Hn, <- Hn'; reflexivity).
  assert (re' = re) by (apply (same_buffer _ _ _ []); rewrite <- He, <- He'; reflexivity).
  assert (rs' = rs) by (apply (same_buffer _ _ _ []); rewrite <- Hs, <- Hs'; reflexivity).
  assert (rw' = rw) by (apply (same_buffer _ _ _ []); rewrite <- Hw, <- Hw'; reflexivity).
  assert (ne' = ne)
    by (apply (same_buffer _ _ _ ([] ++ fallback_warnings img)%list);
        rewrite <- Hne, <- Hne'; reflexivity).
  assert (nw' = nw)
    by (apply (same_buffer _ _ _ ([] ++ fallback_warnings img)%list);
        rewrite <- Hnw, <- Hnw'; reflexivity).
  assert (se' = se)
    by (apply (same_buffer _ _ _ ([] ++ fallback_warnings img)%list);
        rewrite <- Hse, <- Hse'; reflexivity).
  assert (sw' = sw)
    by (apply (same_buffer _ _ _ ([] ++ fallback_warnings img)%list);
        rewrite <- Hsw, <- Hsw'; reflexivity).
  subst rn' re' rs' rw' ne' nw' se' sw'.
  eexists. split; [exact H8 |]. split; [reflexivity |].
  intros d c Hget. cbn [get] in Hget.
  repeat match type of Hget with
         | (if (d =? ?t)%string then _ else _) = _ =>
             destruct (String.eqb_spec d t) as [-> | ?]
         end;
    try discriminate Hget;
    injection Hget as <-;
    (split; [assumption |]);
    (split; intros Hin; cbn [In] in Hin;
     repeat (destruct Hin as [Hin | Hin]; [try discriminate Hin |]);
     try contradiction; try assumption).
Qed.

(** X12: on a conforming sheet all eight buffers of [generateAll8Directions]
    have one size, the width of the sheet by a quarter of its height, and
    nothing is written to the console. *)
Theorem all8_conforming_one_size (sheet : Canvas) (shearAmount : Q) (k : Console) :
  usable sheet ->
  height sheet mod 4 = 0 ->
  256 <= height sheet ->
  exists o,
    generateAll8Directions (Some sheet) shearAmount k = (Ok o, k) /\
    forall d c, get o d = Some c ->
      width c = width sheet /\ height c = height sheet / 4.
Proof.
  intros Hu Hdiv Hmin.
  destruct (all8_sizes sheet shearAmount Hu) as (o & Hrun & Hkeys & Hsz).
  assert (E : conforming sheet = true).
  { unfold conforming. rewrite Hdiv. cbn [Z.eqb andb]. apply Z.leb_le. exact Hmin. }
  exists o. split.
  - rewrite Hrun. unfold fallback_warnings. rewrite E. now rewrite !app_nil_r.
  - intros d c Hget.
    destruct (Hsz d c Hget) as (Hw & Hcard & Hdiag).
    split; [exact Hw |].
    assert (Hd : In d (keys o)).
    { clear - Hget. induction o as [| [k0 v] o IH]; [discriminate Hget |].
      cbn [get] in Hget. cbn [keys map fst In].
      destruct (String.eqb_spec d k0) as [-> | ?]; [now left | right; now apply IH]. }
    rewrite Hkeys in Hd. rewrite E in Hdiag.
    cbn [In] in Hd.
    destruct Hd as [<- | [<- | [<- | [<- | Hd]]]];
      try (apply Hcard; cbn [In]; tauto).
    apply Hdiag. exact Hd.
Qed.

Lemma all8_conforming_one_size_witness :
  exists o,
    generateAll8Directions (Some sheet256) DIAGONAL_SHEAR_AMOUNT [] = (Ok o, []) /\
    forall d c, get o d = Some c ->
      width c = width sheet256 /\ height c = height sheet256 / 4.
Proof.
  apply (all8_conforming_one_size sheet256 DIAGONAL_SHEAR_AMOUNT []).
  - unfold usable. cbn [sheet256 picture width height]. lia.
  - reflexivity.
  - cbn [sheet256 picture height]. lia.
Defined.

(** X13: on an input with pixels that does not conform,
    [generateAll8Directions] still returns its eight buffers, but of two
    sizes: [n], [e], [s], [w] have a quarter of the height of the input,
    rounded down, and [ne], [nw], [se], [sw] its full height; four warnings
    are written to the console, one for each diagonal. *)
Theorem all8_fallback_two_sizes (img : Canvas) (shearAmount : Q) (k : Console) :
  usable img ->
  height img mod 4 <> 0 \/ height img < 256 ->
  exists o,
    generateAll8Directions (Some img) shearAmount k
      = (Ok o, (k ++ [warning; warning; warning; warning])%list) /\
    forall d c, get o d = Some c ->
      width c = width img /\
      (In d ["n"; "e"; "s"; "w"] -> height c = height img / 4) /\
      (In d ["ne"; "nw"; "se"; "sw"] -> height c = height img).
Proof.
  intros Hu Hbad.
  destruct (all8_sizes img shearAmount Hu) as (o & Hrun & _ & Hsz).
  assert (E : conforming img = false).
  { apply negb_true_iff. unfold conforming. now apply isLPC_false. }
  exists o. split.
  - rewrite Hrun. unfold fallback_warnings. rewrite E.
    now rewrite <- !app_assoc.
  - intros d c Hget. rewrite E in Hsz. now apply Hsz.
Qed.

Lemma all8_fallback_two_sizes_witness :
  exists o,
    generateAll8Directions (Some odd6) DIAGONAL_SHEAR_AMOUNT []
      = (Ok o, ([] ++ [warning; warning; warning; warning])%list) /\
    forall d c, get o d = Some c ->
      width c = width odd6 /\
      (In d ["n"; "e"; "s"; "w"] -> height c = height odd6 / 4) /\
      (In d ["ne"; "nw"; "se"; "sw"] -> height c = height odd6).
Proof.
  apply (all8_fallback_two_sizes odd6 DIAGONAL_SHEAR_AMOUNT []).
  - unfold usable. cbn [odd6 picture width height]. lia.
  - left. cbn [odd6 picture height]. discriminate.
Defined.

(** X14: the batch functions fail as a whole: for an absent input both throw
    TypeError and for a canvas with a zero dimension both throw
    InvalidStateError, before any buffer is produced and with nothing written
    to the console. *)
Theorem batch_errors (img : Canvas) (shearAmount : Q) (k : Console) :
  generateAllDiagonals None shearAmount k = (Throw TypeError, k) /\
  generateAll8Directions None shearAmount k = (Throw TypeError, k) /\
  (width img = 0 \/ height img = 0 ->
   generateAllDiagonals (Some img) shearAmount k = (Throw InvalidStateError, k) /\
   generateAll8Directions (Some img) shearAmount k = (Throw InvalidStateError, k)).
Proof.
  split; [reflexivity |]. split; [reflexivity |].
  intros H. split.
  - unfold generateAllDiagonals, generateDiagonal, bind.
    rewrite loadSource_empty by lia. reflexivity.
  - unfold generateAll8Directions, bind.
    rewrite loadSource_empty by lia. reflexivity.
Qed.

Lemma batch_errors_witness :
  generateAllDiagonals (Some empty0) DIAGONAL_SHEAR_AMOUNT []
    = (Throw InvalidStateError, []) /\
  generateAll8Directions (Some empty0) DIAGONAL_SHEAR_AMOUNT []
    = (Throw InvalidStateError, []).
Proof.
  apply (batch_errors empty0 DIAGONAL_SHEAR_AMOUNT []).
  left. reflexivity.
Defined.

(** ** Further properties: canvases without pixels *)

Lemma applyShearTransform_empty (src : Canvas) (direction : string)
    (shearAmount : Q) (k : Console) :
  width src <= 0 \/ height src <= 0 ->
  applyShearTransform src direction shearAmount k = (Throw InvalidStateError, k).
Proof.
  intros H. unfold applyShearTransform, bind.
  now rewrite drawImage_empty by exact H.
Qed.

(** X15: neither [extractRow] nor [applyShearTransform] returns an empty
    buffer for an empty one: on a canvas with a zero dimension both throw
    InvalidStateError, whatever the row index, direction and shear amount. *)
Theorem empty_canvas_throws (c : Canvas) (rowIndex : Z) (direction : string)
    (shearAmount : Q) (k : Console) :
  width c = 0 \/ height c = 0 ->
  extractRow c rowIndex k = (Throw InvalidStateError, k) /\
  applyShearTransform c direction shearAmount k = (Throw InvalidStateError, k).
Proof.
  intros H. split.
  - unfold extractRow, bind, drawImage9.
    assert (E : (width c <=? 0) || (height c <=? 0) = true).
    { apply orb_true_iff. rewrite !Z.leb_le. lia. }
    now rewrite E.
  - apply applyShearTransform_empty. lia.
Qed.

Lemma empty_canvas_throws_witness :
  extractRow empty0 2 [] = (Throw InvalidStateError, []) /\
  applyShearTransform empty0 "ne" DIAGONAL_SHEAR_AMOUNT [] = (Throw InvalidStateError, []).
Proof.
  apply (empty_canvas_throws empty0 2 "ne" DIAGONAL_SHEAR_AMOUNT []).
  left. reflexivity.
Defined.

(** X16: a sheet of fewer than 4 lines has rows of height 0: [extractRow]
    returns such a row without error, and [applyShearTransform] throws
    InvalidStateError on it.  ([generateDiagonal] never reaches this: below
    256 lines it shears the whole input.) *)
Theorem short_sheet_row_is_empty (sheet : Canvas) (rowIndex : Z)
    (direction : string) (shearAmount : Q) (k : Console) :
  usable sheet ->
  height sheet < 4 ->
  exists row,
    extractRow sheet rowIndex k = (Ok row, k) /\
    width row = width sheet /\
    height row = 0 /\
    applyShearTransform row direction shearAmount k = (Throw InvalidStateError, k).
Proof.
  intros Hu Hshort.
  destruct (extractRow_spec sheet rowIndex Hu) as (row & Hrun & Hw & Hh & _).
  assert (Hz : height row = 0).
  { rewrite Hh. apply Z.div_small. destruct Hu as [_ ?]. lia. }
  exists row. split; [apply Hrun |]. split; [exact Hw |]. split; [exact Hz |].
  apply applyShearTransform_empty. lia.
Qed.

Lemma short_sheet_row_is_empty_witness :
  exists row,
    extractRow (picture 2 3 (fun x y => shade (x + y))) 0 [] = (Ok row, []) /\
    width row = width (picture 2 3 (fun x y => shade (x + y))) /\
    height row = 0 /\
    applyShearTransform row "ne" DIAGONAL_SHEAR_AMOUNT [] = (Throw InvalidStateError, []).
Proof.
  apply (short_sheet_row_is_empty (picture 2 3 (fun x y => shade (x + y))) 0
           "ne" DIAGONAL_SHEAR_AMOUNT []).
  - unfold usable. cbn [picture width height]. lia.
  - cbn [picture height]. lia.
Defined.
